(** * Pokedex: the type-effectiveness engine, the roster and the retrieval call

    A shallow embedding of the type chart module, imported by the page as
    [@/lib/type-chart] (the table [TYPE_CHART],
    [calculateDefensiveMatchups], [getOffensiveStrengths]), of the roster
    operations and the comparison logic of [client/src/pages/home.tsx],
    and of [getPokemon] of [client/src/lib/pokeapi.ts].

    Conventions of the embedding:
    - a JavaScript string is a [string] of ASCII characters, as the type
      names and the Pokemon names of the API are; [toLowerCase] acts on
      the letters A-Z and leaves every other character alone;
    - a JavaScript number that the engine can produce is a [number]: NaN,
      +Infinity, +0 or a power of two, multiplied as IEEE-754 binary64 does
      (checked against the Standard Library's [SFmul]);
    - the object [matchups] is a [gmap string number]; the table is an
      association list in declaration order, which is the order of
      [Object.keys] and [Object.entries];
    - a call that can throw returns a [completion]. *)

From Stdlib Require Import ZArith Lia SpecFloat Sorted.
From stdpp Require Import base gmap strings list fin_maps pretty.

Local Open Scope string_scope.
Local Open Scope Z_scope.
Local Open Scope list_scope.

(** ** Completions: a value, or a thrown error *)

Inductive error : Type :=
| TypeError
| SyntaxError
| Error (message : string).

Inductive completion (A : Type) : Type :=
| Return (a : A)
| Throw (e : error).

Arguments Return {A} a.
Arguments Throw {A} e.

(** Sequencing: an error thrown by the first computation is thrown by the
    whole. *)
Definition bind {A B : Type} (c : completion A) (k : A -> completion B)
  : completion B :=
  match c with
  | Return a => k a
  | Throw e => Throw e
  end.

(** The value of a completion that returns. *)
Definition entry_of {A : Type} (c : completion A) : option A :=
  match c with
  | Return a => Some a
  | Throw _ => None
  end.

(** [l.filter(f)] for a callback that can throw. *)
Fixpoint filterM {A : Type} (f : A -> completion bool) (l : list A)
  : completion (list A) :=
  match l with
  | [] => Return []
  | x :: rest =>
      bind (f x) (fun keep =>
      bind (filterM f rest) (fun kept =>
      Return (if keep then x :: kept else kept)))
  end.

(** ** Numbers *)

Module Number.

(** The values reachable from [1] by the factors [2], [0.5] and [0]:
    [Pow2 e] stands for the double [2^e]. *)
Inductive number : Type :=
| NaN
| Infinity
| Zero
| Pow2 (e : Z).

#[export] Instance number_eq_dec : EqDecision number.
Proof. solve_decision. Defined.

(** Exponents of the largest finite and of the smallest positive power of
    two among the doubles. *)
Definition emax : Z := 1023.
Definition emin : Z := -1074.

(** The double nearest to the real [2^e]: overflow gives +Infinity; below
    the smallest subnormal the nearest double is +0 (at [2^-1075], the tie
    between [0] and [2^-1074], rounding to even gives [0]). *)
Definition round (e : Z) : number :=
  if emax <? e then Infinity
  else if e <? emin then Zero
  else Pow2 e.

(** The operator [*] on these values. *)
Definition mul (x y : number) : number :=
  match x, y with
  | NaN, _ | _, NaN => NaN
  | Infinity, Zero | Zero, Infinity => NaN
  | Infinity, _ | _, Infinity => Infinity
  | Zero, _ | _, Zero => Zero
  | Pow2 a, Pow2 b => round (a + b)
  end.

(** The literals [1], [2] and [0.5]. *)
Definition one : number := Pow2 0.
Definition two : number := Pow2 1.
Definition one_half : number := Pow2 (-1).

(** The comparison [x > 1]; it is [false] on NaN. *)
Definition gt1 (x : number) : bool :=
  match x with
  | Infinity => true
  | Pow2 e => 0 <? e
  | NaN | Zero => false
  end.

(** A double: one of the values above with its exponent in range. *)
Definition is_double (x : number) : Prop :=
  match x with
  | Pow2 e => emin <= e <= emax
  | _ => True
  end.

(** A non-negative multiplier in the sense of the data model: a finite
    value, [0] or a power of two. *)
Definition is_multiplier (x : number) : Prop :=
  match x with
  | Zero => True
  | Pow2 e => emin <= e <= emax
  | NaN | Infinity => False
  end.

(** The binary64 datum of a value, in the Standard Library's format:
    precision 53, exponent bound 1024. *)
Definition to_binary64 (x : number) : spec_float :=
  match x with
  | NaN => S754_nan
  | Infinity => S754_infinity false
  | Zero => S754_zero false
  | Pow2 e =>
      if -1022 <=? e
      then S754_finite false (2 ^ 52)%positive (e - 52)
      else S754_finite false (Z.to_pos (2 ^ (e + 1074))) (-1074)
  end.

#[export] Instance spec_float_eq_dec : EqDecision spec_float.
Proof. solve_decision. Defined.

Definition binary64_mul : spec_float -> spec_float -> spec_float :=
  SFmul 53 1024.

(** Every exponent of a power of two among the doubles. *)
Definition exponents : list Z :=
  List.map (fun n => Z.of_nat n + emin) (seq 0 2098).

Definition agrees_on (f : number) (e : Z) : bool :=
  bool_decide
    (binary64_mul (to_binary64 (Pow2 e)) (to_binary64 f)
     = to_binary64 (mul (Pow2 e) f)).

End Number.

Export Number.

(** ** Strings *)

Module Str.

(** [c.toLowerCase()] on one character. *)
Definition lower_ascii (c : Ascii.ascii) : Ascii.ascii :=
  let n := Ascii.nat_of_ascii c in
  if ((65 <=? n) && (n <=? 90))%nat then Ascii.ascii_of_nat (n + 32) else c.

(** [s.toLowerCase()]. *)
Fixpoint toLowerCase (s : string) : string :=
  match s with
  | EmptyString => EmptyString
  | String c r => String (lower_ascii c) (toLowerCase r)
  end.

End Str.

Export Str.

(** ** The type chart ([@/lib/type-chart]) *)

Module TypeChart.

Record TypeEffectiveness : Type := {
  double : list string;
  half : list string;
  zero : list string;
}.

(** The table, in declaration order. *)
Definition TYPE_CHART : list (string * TypeEffectiveness) := [
  ("normal", {| double := ["fighting"]; half := []; zero := ["ghost"] |});
  ("fire", {| double := ["water"; "ground"; "rock"];
              half := ["fire"; "grass"; "ice"; "bug"; "steel"; "fairy"];
              zero := [] |});
  ("water", {| double := ["electric"; "grass"];
               half := ["fire"; "water"; "ice"; "steel"]; zero := [] |});
  ("electric", {| double := ["ground"];
                  half := ["electric"; "flying"; "steel"]; zero := [] |});
  ("grass", {| double := ["fire"; "ice"; "poison"; "flying"; "bug"];
               half := ["water"; "electric"; "grass"; "ground"];
               zero := [] |});
  ("ice", {| double := ["fire"; "fighting"; "rock"; "steel"];
             half := ["ice"]; zero := [] |});
  ("fighting", {| double := ["flying"; "psychic"; "fairy"];
                  half := ["bug"; "rock"; "dark"]; zero := [] |});
  ("poison", {| double := ["ground"; "psychic"];
                half := ["grass"; "fighting"; "poison"; "bug"; "fairy"];
                zero := [] |});
  ("ground", {| double := ["water"; "grass"; "ice"];
                half := ["poison"; "rock"]; zero := ["electric"] |});
  ("flying", {| double := ["electric"; "ice"; "rock"];
                half := ["grass"; "fighting"; "bug"]; zero := ["ground"] |});
  ("psychic", {| double := ["bug"; "ghost"; "dark"];
                 half := ["fighting"; "psychic"]; zero := [] |});
  ("bug", {| double := ["fire"; "flying"; "rock"];
             half := ["grass"; "fighting"; "ground"]; zero := [] |});
  ("rock", {| double := ["water"; "grass"; "fighting"; "ground"; "steel"];
              half := ["normal"; "fire"; "poison"; "flying"]; zero := [] |});
  ("ghost", {| double := ["ghost"; "dark"]; half := ["poison"; "bug"];
               zero := ["normal"; "fighting"] |});
  ("dragon", {| double := ["ice"; "dragon"; "fairy"];
                half := ["fire"; "water"; "electric"; "grass"];
                zero := [] |});
  ("steel", {| double := ["fire"; "fighting"; "ground"];
               half := ["normal"; "grass"; "ice"; "flying"; "psychic"; "bug";
                        "rock"; "dragon"; "steel"; "fairy"];
               zero := ["poison"] |});
  ("dark", {| double := ["fighting"; "bug"; "fairy"];
              half := ["ghost"; "dark"]; zero := ["psychic"] |});
  ("fairy", {| double := ["poison"; "steel"];
               half := ["fighting"; "bug"; "dark"]; zero := ["dragon"] |})
].

(** [Object.keys(TYPE_CHART)]: the canonical types. *)
Definition allTypes : list string := TYPE_CHART.*1.

(** [l.includes(x)]. *)
Definition includes (x : string) (l : list string) : bool :=
  bool_decide (x ∈ l).

(** The own property [k] of the table. *)
Fixpoint own (chart : list (string * TypeEffectiveness)) (k : string)
  : option TypeEffectiveness :=
  match chart with
  | [] => None
  | (k', data) :: rest => if decide (k' = k) then Some data else own rest k
  end.

(** The properties that every object literal inherits from
    [Object.prototype]. Each of them holds a function, except [__proto__],
    whose getter returns the prototype object. *)
Definition Object_prototype : list string := [
  "constructor"; "hasOwnProperty"; "isPrototypeOf"; "propertyIsEnumerable";
  "toLocaleString"; "toString"; "valueOf"; "__proto__";
  "__defineGetter__"; "__defineSetter__"; "__lookupGetter__";
  "__lookupSetter__"
].

(** What the property read [TYPE_CHART[k]] yields. The table is an object
    literal: a key that it does not own is looked up on
    [Object.prototype]. The read gives an entry of the table, an inherited
    function or object (truthy, and without a property [double]), or
    [undefined]. *)
Inductive property : Type :=
| Entry (data : TypeEffectiveness)
| Inherited
| Undefined.

Definition TYPE_CHART_get (k : string) : property :=
  match own TYPE_CHART k with
  | Some data => Entry data
  | None => if includes k Object_prototype then Inherited else Undefined
  end.

(** [matchups[t] *= f]. The read of a key that [matchups] does not own
    gives [undefined] or an inherited function, either of which the
    product turns into NaN, and the write then creates the key; a write of
    a number to [__proto__] sets nothing. *)
Definition mulAssign (f : number) (matchups : gmap string number) (t : string)
  : gmap string number :=
  match matchups !! t with
  | Some x => <[t := mul x f]> matchups
  | None =>
      if decide (t = "__proto__") then matchups
      else <[t := mul NaN f]> matchups
  end.

(** The body of [types.forEach((defendingType) => ...)]. The guard
    [if (!data) return] skips [undefined]; an inherited value passes it,
    and [data.double.forEach] then throws, [data.double] being
    [undefined]. *)
Definition defend (matchups : gmap string number) (defendingType : string)
  : completion (gmap string number) :=
  match TYPE_CHART_get (toLowerCase defendingType) with
  | Undefined => Return matchups
  | Inherited => Throw TypeError
  | Entry data =>
      let matchups := foldl (mulAssign two) matchups (double data) in
      let matchups := foldl (mulAssign one_half) matchups (half data) in
      let matchups := foldl (mulAssign Zero) matchups (zero data) in
      Return matchups
  end.

(** [types.forEach]: the callback runs on each element in turn, and an
    error it throws ends the loop. The result is the object [matchups] as
    the loop leaves it, with the error thrown, if any. *)
Fixpoint forEach (matchups : gmap string number) (types : list string)
  : gmap string number * option error :=
  match types with
  | [] => (matchups, None)
  | defendingType :: rest =>
      match defend matchups defendingType with
      | Return matchups => forEach matchups rest
      | Throw e => (matchups, Some e)
      end
  end.

(** [allTypes.forEach((t) => (matchups[t] = 1))] on the empty object. *)
Definition initial : gmap string number :=
  foldl (fun matchups t => <[t := one]> matchups) ∅ allTypes.

Definition calculateDefensiveMatchups (types : list string)
  : completion (gmap string number) :=
  match forEach initial types with
  | (matchups, None) => Return matchups
  | (_, Some e) => Throw e
  end.

(** [calculateDefensiveMatchups(types)[a]], when the call returns and the
    object owns [a]. *)
Definition entry (result : completion (gmap string number)) (a : string)
  : option number :=
  match result with
  | Return matchups => matchups !! a
  | Throw _ => None
  end.

(** [strengths.add(defType)], in insertion order. *)
Definition add (strengths : list string) (defType : string) : list string :=
  if includes defType strengths then strengths else strengths ++ [defType].

(** The callback of the inner loop, on one pair of
    [Object.entries(TYPE_CHART)]. *)
Definition scanEntry (atkType : string) (strengths : list string)
    (pair : string * TypeEffectiveness) : list string :=
  let '(defType, data) := pair in
  if includes (toLowerCase atkType) (double data)
  then add strengths defType else strengths.

(** The inner loop. *)
Definition scan (atkType : string) (strengths : list string) : list string :=
  foldl (scanEntry atkType) strengths TYPE_CHART.

(** [Array.from(strengths)] after the loop over the attackers. *)
Definition getOffensiveStrengths (attackerTypes : list string) : list string :=
  foldl (fun strengths atkType => scan atkType strengths) [] attackerTypes.

End TypeChart.

Export TypeChart.

(** ** The roster and the comparison ([client/src/pages/home.tsx]) *)

Module Home.

(** An element of [pokemon.types]; [type_name] is [t.type.name]. *)
Record PokemonType : Type := {
  slot : Z;
  type_name : string;
}.

(** The fields of [Pokemon] that the roster and the comparison read. *)
Record Pokemon : Type := {
  id : Z;
  name : string;
  types : list PokemonType;
}.

Record Toast : Type := {
  title : string;
  description : string;
  variant : option string;
}.

(** The toasts that report a rejected addition. *)
Definition boxFull : Toast :=
  {| title := "BOX FULL!";
     description := "Your party is full (max 6)!";
     variant := Some "destructive" |}.

Definition alreadyCaught (pokemon : Pokemon) : Toast :=
  {| title := "ALREADY CAUGHT!";
     description := name pokemon +:+ " is already in your team!";
     variant := None |}.

Definition gotcha (pokemon : Pokemon) : Toast :=
  {| title := "GOTCHA!";
     description := name pokemon +:+ " was added to the party!";
     variant := None |}.

Definition reportsConflict (t : option Toast) : Prop :=
  exists toast, t = Some toast /\
    (title toast = "BOX FULL!" \/ title toast = "ALREADY CAUGHT!").

(** [addToTeam]: the new roster and the toast shown, if any. *)
Definition addToTeam (pokemon : option Pokemon) (team : list Pokemon)
  : list Pokemon * option Toast :=
  match pokemon with
  | None => (team, None)
  | Some pokemon =>
      if (6 <=? List.length team)%nat then (team, Some boxFull)
      else
        match List.find (fun p => id p =? id pokemon) team with
        | Some _ => (team, Some (alreadyCaught pokemon))
        | None => (team ++ [pokemon], Some (gotcha pokemon))
        end
  end.

Definition removeFromTeam (i : Z) (team : list Pokemon) : list Pokemon :=
  List.filter (fun p => negb (id p =? i)) team.

(** The handler of the clear button, [setTeam([])]. *)
Definition clearTeam (team : list Pokemon) : list Pokemon := [].

(** The rosters that the three handlers can produce from the initial
    state [useState([])]. *)
Inductive reachable : list Pokemon -> Prop :=
| reachable_initial : reachable []
| reachable_add pokemon team :
    reachable team -> reachable (addToTeam pokemon team).1
| reachable_remove i team :
    reachable team -> reachable (removeFromTeam i team)
| reachable_clear team :
    reachable team -> reachable (clearTeam team).

Definition typeNames (p : Pokemon) : list string := type_name <$> types p.

(** [pokemon?.types.map(t => t.type.name) || []]. *)
Definition currentTypes (pokemon : option Pokemon) : list string :=
  match pokemon with
  | Some pokemon => typeNames pokemon
  | None => []
  end.

(** The keys of [matchups] whose multiplier exceeds 1. The list is only
    ever searched with [includes], so its order is immaterial. *)
Definition currentPokemonWeaknesses (matchups : gmap string number)
  : list string :=
  (List.filter (fun '(_, multiplier) => gt1 multiplier)
     (map_to_list matchups)).*1.

(** [memberMatchups[atkType] > 1]; a missing key compares as [false]. *)
Definition exceeds1 (memberMatchups : gmap string number) (atkType : string)
  : bool :=
  match memberMatchups !! atkType with
  | Some multiplier => gt1 multiplier
  | None => false
  end.

(** The callback of the filter that computes [teamDisadvantage]. *)
Definition weakTo (currentPokemonStrengths : list string) (member : Pokemon)
  : completion bool :=
  bind (calculateDefensiveMatchups (typeNames member)) (fun memberMatchups =>
  Return (existsb (exceeds1 memberMatchups) currentPokemonStrengths)).

Record Comparison : Type := {
  teamAdvantage : list Pokemon;
  teamDisadvantage : list Pokemon;
}.

(** The comparison logic of the component, run on every render. *)
Definition comparison (pokemon : option Pokemon) (team : list Pokemon)
  : completion Comparison :=
  bind (calculateDefensiveMatchups (currentTypes pokemon))
    (fun currentPokemonMatchups =>
  let weaknesses := currentPokemonWeaknesses currentPokemonMatchups in
  let advantage :=
    List.filter
      (fun member =>
         existsb (fun t => includes (type_name t) weaknesses) (types member))
      team in
  let currentPokemonStrengths :=
    getOffensiveStrengths (currentTypes pokemon) in
  bind (filterM (weakTo currentPokemonStrengths) team) (fun disadvantage =>
  Return {| teamAdvantage := advantage; teamDisadvantage := disadvantage |})).

(** A roster member or subject with the given number and type names. *)
Definition entity (i : Z) (names : list string) : Pokemon :=
  {| id := i;
     name := "entity";
     types := (fun n => {| slot := 1; type_name := n |}) <$> names |}.

End Home.

(** ** The retrieval call ([client/src/lib/pokeapi.ts]) *)

Module PokeApi.

(** A query: a string or a number. The numbers are the integers, printed
    in decimal, and NaN. *)
Inductive Query : Type :=
| QString (s : string)
| QNumber (n : Z)
| QNaN.

(** The falsy queries. *)
Definition falsy (query : Query) : bool :=
  match query with
  | QString "" => true
  | QNumber 0 => true
  | QNaN => true
  | _ => false
  end.

(** [query || 1]. *)
Definition orOne (query : Query) : Query :=
  if falsy query then QNumber 1 else query.

(** [typeof q === 'string' ? q.toLowerCase() : q], as the template
    literal prints it. *)
Definition segment (q : Query) : string :=
  match q with
  | QString s => toLowerCase s
  | QNumber n => pretty n
  | QNaN => "NaN"
  end.

Definition endpoint : string := "https://pokeapi.co/api/v2/pokemon/".

Section Remote.

(** The type of a parsed body. *)
Context {J : Type}.

(** A response: its [ok] flag, and its body parsed as JSON when it
    parses. *)
Record Response : Type := {
  ok : bool;
  json : option J;
}.

(** The outcome of one [fetch]: the promise rejects (a network failure),
    or resolves to a response. *)
Inductive Fetched : Type :=
| Rejected
| Resolved (response : Response).

(** A computation that talks to the remote: it ends, or issues one
    [fetch] and continues with its outcome. *)
Inductive io (A : Type) : Type :=
| Done (c : completion A)
| Fetch (url : string) (k : Fetched -> io A).

Definition getPokemon (query : Query) : io J :=
  let q := orOne query in
  Fetch J (endpoint +:+ segment q) (fun outcome =>
    match outcome with
    | Rejected => Done J (Throw TypeError)
    | Resolved response =>
        if ok response
        then Done J (match json response with
                     | Some body => Return body
                     | None => Throw SyntaxError
                     end)
        else Done J (Throw (Error "Pokemon not found"))
    end).

(** Running a computation against a remote: the URLs requested, in
    order, and the completion. *)
Fixpoint run {A : Type} (remote : string -> Fetched) (p : io A)
  : list string * completion A :=
  match p with
  | Done _ c => ([], c)
  | Fetch _ url k =>
      let '(requests, c) := run remote (k (remote url)) in
      (url :: requests, c)
  end.

End Remote.

Arguments Response J : clear implicits.
Arguments Fetched J : clear implicits.
Arguments io J A : clear implicits.

End PokeApi.

(** ** The page: search, navigation, buttons, and the party bar
    ([client/src/pages/home.tsx]) *)

Module Page.

Import Home PokeApi.

(** [l.map(f)] for a callback that can throw. *)
Fixpoint traverse {A B : Type} (f : A -> completion B) (l : list A)
  : completion (list B) :=
  match l with
  | [] => Return []
  | x :: rest =>
      bind (f x) (fun y =>
      bind (traverse f rest) (fun ys =>
      Return (y :: ys)))
  end.

(** [s.trim()]: the white space of ASCII is removed at both ends. *)
Fixpoint trimStart (s : string) : string :=
  match s with
  | EmptyString => EmptyString
  | String c rest => if Ascii.is_space c then trimStart rest else s
  end.

Definition trim (s : string) : string :=
  String.rev (trimStart (String.rev (trimStart s))).

(** A string of white space only. *)
Fixpoint blank (s : string) : bool :=
  match s with
  | EmptyString => true
  | String c rest => Ascii.is_space c && blank rest
  end.

(** The truth value of a string. *)
Definition truthy (s : string) : bool :=
  match s with
  | EmptyString => false
  | String _ _ => true
  end.

(** [handleSearch]: the new value of [searchId]. *)
Definition handleSearch (inputValue : string) (searchId : Query) : Query :=
  if truthy (trim inputValue) then QString (toLowerCase inputValue)
  else searchId.

(** [handleNext] and [handlePrev]: the new value of [searchId], given the
    subject loaded, if any. *)
Definition handleNext (pokemon : option Pokemon) (searchId : Query) : Query :=
  match pokemon with
  | Some pokemon => QNumber (id pokemon + 1)
  | None => searchId
  end.

Definition handlePrev (pokemon : option Pokemon) (searchId : Query) : Query :=
  match pokemon with
  | Some pokemon =>
      if 1 <? id pokemon then QNumber (id pokemon - 1) else searchId
  | None => searchId
  end.

(** The [disabled] attribute of the PREV button. *)
Definition prevDisabled (pokemon : Pokemon) : bool := id pokemon =? 1.

(** The [disabled] attribute and the label of the ADD button. *)
Definition addDisabled (pokemon : Pokemon) (team : list Pokemon) : bool :=
  existsb (fun p => id p =? id pokemon) team || (6 <=? List.length team)%nat.

Definition addLabel (pokemon : Pokemon) (team : list Pokemon) : string :=
  if existsb (fun p => id p =? id pokemon) team then "CAUGHT" else "ADD +".

(** The six slots of the party bar,
    [Array.from({ length: 6 }).map((_, i) => team[i])]. *)
Definition slots (team : list Pokemon) : list (option Pokemon) :=
  (fun i => team !! i) <$> seq 0 6.

(** The table of the badge colours. *)
Definition TYPE_COLORS : list (string * string) := [
  ("normal", "bg-type-normal border-black text-black");
  ("fire", "bg-type-fire border-black text-white");
  ("water", "bg-type-water border-black text-white");
  ("electric", "bg-type-electric border-black text-black");
  ("grass", "bg-type-grass border-black text-black");
  ("ice", "bg-type-ice border-black text-black");
  ("fighting", "bg-type-fighting border-black text-white");
  ("poison", "bg-type-poison border-black text-white");
  ("ground", "bg-type-ground border-black text-black");
  ("flying", "bg-type-flying border-black text-black");
  ("psychic", "bg-type-psychic border-black text-white");
  ("bug", "bg-type-bug border-black text-white");
  ("rock", "bg-type-rock border-black text-black");
  ("ghost", "bg-type-ghost border-black text-white");
  ("dragon", "bg-type-dragon border-black text-white");
  ("steel", "bg-type-steel border-black text-black");
  ("fairy", "bg-type-fairy border-black text-black")
].

(** The own property [k] of [TYPE_COLORS]. *)
Fixpoint ownColor (colors : list (string * string)) (k : string)
  : option string :=
  match colors with
  | [] => None
  | (k', classes) :: rest =>
      if decide (k' = k) then Some classes else ownColor rest k
  end.

(** The value of an expression that is a string, an inherited function or
    object, or [undefined]. *)
Inductive value : Type :=
| VString (s : string)
| VInherited
| VUndefined.

(** The property read [TYPE_COLORS[k]]. *)
Definition TYPE_COLORS_get (k : string) : value :=
  match ownColor TYPE_COLORS k with
  | Some classes => VString classes
  | None => if includes k Object_prototype then VInherited else VUndefined
  end.

(** [s.split(' ')[0]]: the part of [s] before its first space. *)
Fixpoint firstWord (s : string) : string :=
  match s with
  | EmptyString => EmptyString
  | String c rest =>
      if Ascii.eqb c (Ascii.ascii_of_nat 32) then EmptyString
      else String c (firstWord rest)
  end.

(** The badge colour of the party bar,
    [TYPE_COLORS[t.type.name].split(' ')[0]]: a value that is no string
    has no method [split], and the call throws. *)
Definition partyBadge (name : string) : completion string :=
  match TYPE_COLORS_get name with
  | VString classes => Return (firstWord classes)
  | VInherited | VUndefined => Throw TypeError
  end.

(** The badge colour of the main card,
    [TYPE_COLORS[t.type.name] || "bg-gray-400 text-white border-black"]. *)
Definition cardBadge (name : string) : value :=
  match TYPE_COLORS_get name with
  | VString classes =>
      if truthy classes then VString classes
      else VString "bg-gray-400 text-white border-black"
  | VInherited => VInherited
  | VUndefined => VString "bg-gray-400 text-white border-black"
  end.

(** [Object.entries(defensive)] for an object whose keys are canonical
    types created in the order of [allTypes], as the objects that
    [calculateDefensiveMatchups] returns are. *)
Definition Object_entries (defensive : gmap string number)
  : list (string * number) :=
  omap (fun a => (fun x => (a, x)) <$> defensive !! a) allTypes.

(** The comparison [x < 1]; it is [false] on NaN. *)
Definition lt1 (x : number) : bool :=
  match x with
  | Zero => true
  | Pow2 e => e <? 0
  | NaN | Infinity => false
  end.

(** The sign of the difference [x - y], as a sort reads it: a NaN counts
    as [0]. The difference of two distinct finite doubles is not [0], and
    [Infinity - Infinity] is NaN. *)
Definition signOfDifference (x y : number) : Z :=
  match x, y with
  | NaN, _ | _, NaN => 0
  | Infinity, Infinity => 0
  | Infinity, _ => 1
  | _, Infinity => -1
  | Zero, Zero => 0
  | Zero, Pow2 _ => -1
  | Pow2 _, Zero => 1
  | Pow2 a, Pow2 b => Z.sgn (a - b)
  end.

(** [l.sort(compare)]: the sort is stable, and an element goes before
    the first one that it does not exceed. *)
Fixpoint insert {A : Type} (compare : A -> A -> Z) (x : A) (l : list A)
  : list A :=
  match l with
  | [] => [x]
  | y :: rest =>
      if compare x y <=? 0 then x :: y :: rest
      else y :: insert compare x rest
  end.

Definition sort {A : Type} (compare : A -> A -> Z) (l : list A) : list A :=
  foldr (insert compare) [] l.

(** The comparators [(a, b) => b[1] - a[1]] and [(a, b) => a[1] - b[1]]. *)
Definition descending (a b : string * number) : Z :=
  signOfDifference b.2 a.2.

Definition ascending (a b : string * number) : Z :=
  signOfDifference a.2 b.2.

(** The lists [weaknesses] and [resistances] of a member's dialog. *)
Definition dialogWeaknesses (defensive : gmap string number)
  : list (string * number) :=
  sort descending (List.filter (fun p => gt1 p.2) (Object_entries defensive)).

Definition dialogResistances (defensive : gmap string number)
  : list (string * number) :=
  sort ascending (List.filter (fun p => lt1 p.2) (Object_entries defensive)).

Record Dialog : Type := {
  badges : list string;
  weaknesses : list (string * number);
  resistances : list (string * number);
}.

(** What the dialog of a member shows: the badges first, then the
    analysis of its types. *)
Definition memberDialog (member : Pokemon) : completion Dialog :=
  bind (traverse partyBadge (typeNames member)) (fun badges =>
  bind (calculateDefensiveMatchups (typeNames member)) (fun defensive =>
  Return {| badges := badges;
            weaknesses := dialogWeaknesses defensive;
            resistances := dialogResistances defensive |})).

(** The party bar: the dialog of each slot that holds a member. The
    elements of a dialog are built when the page renders, whether the
    dialog is open or not. *)
Definition partyBar (team : list Pokemon) : completion (list (option Dialog)) :=
  traverse (fun slot : option Pokemon =>
              match slot with
              | Some member =>
                  bind (memberDialog member) (fun d => Return (Some d))
              | None => Return None
              end)
           (slots team).

(** The request of the query function, [getPokemon(searchId)]. *)
Definition requested (searchId : Query) : string :=
  endpoint +:+ segment (orOne searchId).

End Page.

(** ** The multiplier of one attacking type *)

(** The effect on the value [x] of the key [a] of
    [l.forEach((t) => (matchups[t] *= f))]. *)
Definition times (f : number) (l : list string) (a : string) (x : number)
  : number :=
  foldl (fun x t => if decide (t = a) then mul x f else x) x l.

(** The effect on the key [a] of the three loops over an entry. *)
Definition entryEffect (data : TypeEffectiveness) (a : string) (x : number)
  : number :=
  times Zero (zero data) a (times one_half (half data) a
    (times two (double data) a x)).

(** The effect on the key [a] of one defending type. *)
Definition step (a : string) (x : number) (defendingType : string) : number :=
  match TYPE_CHART_get (toLowerCase defendingType) with
  | Entry data => entryEffect data a x
  | Inherited | Undefined => x
  end.

(** The value that the key [a] reaches on the types [types]. *)
Definition multiplier (types : list string) (a : string) : number :=
  foldl (step a) one types.

(** The object that owns the canonical types, [a] with the value [v a]. *)
Definition matchupsOf (v : string -> number) : gmap string number :=
  list_to_map ((fun a => (a, v a)) <$> allTypes).

(** A defending type on which the callback throws. *)
Definition throws (defendingType : string) : bool :=
  match TYPE_CHART_get (toLowerCase defendingType) with
  | Inherited => true
  | Entry _ | Undefined => false
  end.

(** No identifier of the list, lower-cased, names a property that the
    table inherits. *)
Definition plain (types : list string) : bool :=
  forallb (fun d => negb (throws d)) types.

(** An identifier outside the fixed set of types, after lower-casing. *)
Definition unknown (u : string) : Prop := toLowerCase u ∉ allTypes.

(** The factors of the data model, following the specification's words:
    one factor per applicable relationship of a defending type, [2] for
    [double], [0.5] for [half], [0] for [zero]. *)
Definition relation (f : number) (l : list string) (a : string) : list number :=
  if includes a l then [f] else [].

Definition entryFactors (data : TypeEffectiveness) (a : string) : list number :=
  relation two (double data) a ++ relation one_half (half data) a
    ++ relation Zero (zero data) a.

Definition factors (types : list string) (a : string) : list number :=
  types ≫= (fun d =>
    match own TYPE_CHART (toLowerCase d) with
    | Some data => entryFactors data a
    | None => []
    end).

(** The product of the factors, starting from [1]. *)
Definition product (fs : list number) : number := foldl mul one fs.

Definition isFactor (f : number) : Prop :=
  f = two \/ f = one_half \/ f = Zero.

(** The exponent that a factor adds, the sum over a list of factors, and
    whether the list holds the factor [0]. *)
Definition exponent (f : number) : Z :=
  match f with
  | Pow2 e => e
  | _ => 0
  end.

Definition net (fs : list number) : Z :=
  foldr (fun f n => exponent f + n) 0 fs.

Definition hasZero (fs : list number) : bool :=
  existsb (fun f => bool_decide (f = Zero)) fs.

(** The exact product of a list of factors: [0] when one of them is [0],
    and otherwise two to the power of the net exponent. *)
Definition exact (fs : list number) : number :=
  if hasZero fs then Zero else Pow2 (net fs).

(** The closure of the table, and the separation of its relationships, as
    checks that compute. *)
Definition closed_table : bool :=
  forallb (fun '(_, data) =>
             forallb (fun t => includes t allTypes)
                     (double data ++ half data ++ zero data))
          TYPE_CHART.

Definition separate_table : bool :=
  forallb (fun '(_, data) =>
             bool_decide (NoDup (double data ++ half data ++ zero data)))
          TYPE_CHART.

(** * Facts about numbers *)

Lemma exponents_complete (e : Z) : emin <= e <= emax -> In e exponents.
Proof.
  intros He. unfold exponents. apply in_map_iff.
  exists (Z.to_nat (e - emin)). split.
  - unfold emin in *. lia.
  - apply in_seq. unfold emin, emax in *. lia.
Qed.

Lemma agrees_on_all (f : number) :
  forallb (agrees_on f) exponents = true ->
  forall e, emin <= e <= emax ->
    binary64_mul (to_binary64 (Pow2 e)) (to_binary64 f)
    = to_binary64 (mul (Pow2 e) f).
Proof.
  intros Hall e He.
  pose proof (proj1 (forallb_forall _ _) Hall e (exponents_complete e He)) as H.
  unfold agrees_on in H. by apply bool_decide_eq_true in H.
Qed.

(** [mul] by each of the three factors is binary64 multiplication. *)
Lemma mul_is_binary64_mul (x f : number) :
  is_double x -> f = two \/ f = one_half \/ f = Zero ->
  binary64_mul (to_binary64 x) (to_binary64 f) = to_binary64 (mul x f).
Proof.
  intros Hx Hf. destruct x as [ | | | e].
  - by destruct Hf as [-> | [-> | ->]].
  - by destruct Hf as [-> | [-> | ->]].
  - by destruct Hf as [-> | [-> | ->]].
  - simpl in Hx. destruct Hf as [-> | [-> | ->]];
      (apply agrees_on_all; [vm_compute; reflexivity | exact Hx]).
Qed.

Lemma mul_is_binary64_mul_witness :
  binary64_mul (to_binary64 (Pow2 1023)) (to_binary64 two)
  = to_binary64 Infinity.
Proof.
  apply (mul_is_binary64_mul (Pow2 1023) two).
  - simpl. unfold emin, emax. lia.
  - by left.
Defined.

(** * Facts about the table *)

Lemma allTypes_NoDup : NoDup allTypes.
Proof. apply (bool_decide_unpack _). by vm_compute. Qed.

Lemma allTypes_length : List.length allTypes = 18%nat.
Proof. reflexivity. Qed.

Lemma includes_true (x : string) (l : list string) :
  includes x l = true <-> x ∈ l.
Proof. unfold includes. apply bool_decide_eq_true. Qed.

Lemma includes_false (x : string) (l : list string) :
  includes x l = false <-> x ∉ l.
Proof. unfold includes. apply bool_decide_eq_false. Qed.

Lemma own_Some_elem (chart : list (string * TypeEffectiveness)) k data :
  own chart k = Some data -> (k, data) ∈ chart.
Proof.
  induction chart as [ | [k' data'] rest IH]; simpl; [done | ].
  case_decide as Hk.
  - intros [= ->]. subst. left.
  - intros H. right. by apply IH.
Qed.

Lemma own_elem (chart : list (string * TypeEffectiveness)) k data :
  NoDup chart.*1 -> (k, data) ∈ chart -> own chart k = Some data.
Proof.
  induction chart as [ | [k' data'] rest IH]; simpl.
  - intros _ H. by apply elem_of_nil in H.
  - intros Hnd H. apply NoDup_cons in Hnd as [Hk' Hnd].
    apply elem_of_cons in H as [[= -> ->] | H].
    + by rewrite decide_True.
    + rewrite decide_False; [by apply IH | ].
      intros ->. apply Hk'. apply list_elem_of_fmap. by exists (k, data).
Qed.

Lemma own_None (chart : list (string * TypeEffectiveness)) k :
  own chart k = None <-> k ∉ chart.*1.
Proof.
  induction chart as [ | [k' data'] rest IH]; simpl.
  - split; [intros _; apply not_elem_of_nil | done].
  - case_decide as Hk.
    + subst. split; [done | ]. intros H. exfalso. apply H. left.
    + rewrite IH, not_elem_of_cons. split; [by intros H; split | by intros [_ H]].
Qed.

Lemma table_closed k data t :
  (k, data) ∈ TYPE_CHART -> t ∈ double data ++ half data ++ zero data ->
  t ∈ allTypes.
Proof.
  intros Hk Ht.
  assert (closed_table = true) as H by (by vm_compute).
  unfold closed_table in H. rewrite forallb_forall in H.
  apply list_elem_of_In in Hk. specialize (H _ Hk). simpl in H.
  rewrite forallb_forall in H. apply list_elem_of_In in Ht.
  specialize (H _ Ht). by apply includes_true.
Qed.

Lemma table_separate k data :
  (k, data) ∈ TYPE_CHART -> NoDup (double data ++ half data ++ zero data).
Proof.
  intros Hk.
  assert (separate_table = true) as H by (by vm_compute).
  unfold separate_table in H. rewrite forallb_forall in H.
  apply list_elem_of_In in Hk. specialize (H _ Hk). simpl in H.
  by apply bool_decide_eq_true in H.
Qed.

Lemma get_Entry k data :
  TYPE_CHART_get k = Entry data <-> own TYPE_CHART k = Some data.
Proof.
  unfold TYPE_CHART_get. destruct (own TYPE_CHART k) as [data' | ].
  - split; congruence.
  - destruct (includes k Object_prototype); split; congruence.
Qed.

Lemma get_Entry_elem k data :
  TYPE_CHART_get k = Entry data <-> (k, data) ∈ TYPE_CHART.
Proof.
  rewrite get_Entry. split; [apply own_Some_elem | ].
  apply own_elem, allTypes_NoDup.
Qed.

(** * Lower-casing and the inherited properties *)

Lemma lower_ascii_idempotent c : lower_ascii (lower_ascii c) = lower_ascii c.
Proof. by destruct c as [[] [] [] [] [] [] [] []]. Qed.

Lemma toLowerCase_idempotent s : toLowerCase (toLowerCase s) = toLowerCase s.
Proof.
  induction s as [ | c s IH]; simpl; [done | ].
  by rewrite lower_ascii_idempotent, IH.
Qed.

(** The callback throws exactly on the two inherited properties whose
    names are in lower case. *)
Lemma throws_iff d :
  throws d = true <->
  toLowerCase d = "constructor" \/ toLowerCase d = "__proto__".
Proof.
  unfold throws. split.
  - unfold TYPE_CHART_get.
    destruct (own TYPE_CHART (toLowerCase d)); [done | ].
    destruct (includes (toLowerCase d) Object_prototype) eqn:Hin; [ | done].
    intros _. apply includes_true in Hin.
    pose proof (toLowerCase_idempotent d) as Hidem.
    unfold Object_prototype in Hin.
    repeat (apply elem_of_cons in Hin as [Hin | Hin];
            [first [by left | by right
                   | by (exfalso; rewrite Hin in Hidem; vm_compute in Hidem)]
            | ]).
    by apply elem_of_nil in Hin.
  - by intros [-> | ->].
Qed.

Lemma plain_iff types :
  plain types = true <->
  forall d, d ∈ types ->
    toLowerCase d <> "constructor" /\ toLowerCase d <> "__proto__".
Proof.
  unfold plain. rewrite forallb_forall. split.
  - intros H d Hd. apply list_elem_of_In in Hd. specialize (H d Hd).
    apply negb_true_iff in H.
    split; intros Heq; apply not_true_iff_false in H; apply H, throws_iff;
      auto.
  - intros H d Hd. apply list_elem_of_In in Hd.
    destruct (H d Hd) as [H1 H2]. apply negb_true_iff, not_true_iff_false.
    intros [? | ?]%throws_iff; done.
Qed.

(** A list of types of the fixed set, in any letter case, is plain. *)
Lemma canonical_plain types :
  (forall d, d ∈ types -> toLowerCase d ∈ allTypes) -> plain types = true.
Proof.
  intros H. apply plain_iff. intros d Hd. specialize (H d Hd).
  assert ("constructor" ∉ allTypes) as H1
    by (apply (bool_decide_unpack _); by vm_compute).
  assert ("__proto__" ∉ allTypes) as H2
    by (apply (bool_decide_unpack _); by vm_compute).
  split; intros Heq; rewrite Heq in H; done.
Qed.

(** * The object [matchups] *)

Lemma mulAssign_lookup_ne f (m : gmap string number) t a :
  t ≠ a -> mulAssign f m t !! a = m !! a.
Proof.
  intros Hne. unfold mulAssign. destruct (m !! t).
  - by rewrite lookup_insert_ne.
  - case_decide; [done | by rewrite lookup_insert_ne].
Qed.

Lemma mulAssign_lookup_eq f (m : gmap string number) a x :
  m !! a = Some x -> mulAssign f m a !! a = Some (mul x f).
Proof. intros H. unfold mulAssign. rewrite H. apply lookup_insert_eq. Qed.

(** An update of a key that the object owns creates no key. *)
Lemma mulAssign_dom f (m : gmap string number) t :
  t ∈ dom m -> dom (mulAssign f m t) = dom m.
Proof.
  intros Ht. pose proof Ht as [x Hx]%elem_of_dom.
  unfold mulAssign. rewrite Hx, dom_insert_L.
  apply set_eq. intros k. rewrite elem_of_union, elem_of_singleton.
  split; [by intros [-> | H] | by right].
Qed.

(** An update of a missing key would create it. *)
Lemma mulAssign_missing f (m : gmap string number) t :
  m !! t = None -> t ≠ "__proto__" ->
  mulAssign f m t = <[t := NaN]> m /\ dom (mulAssign f m t) = {[t]} ∪ dom m.
Proof.
  intros Hm Ht. unfold mulAssign. rewrite Hm, decide_False by done.
  split; [done | apply dom_insert_L].
Qed.

Lemma foldl_mulAssign_notin f l (m : gmap string number) a :
  a ∉ l -> foldl (mulAssign f) m l !! a = m !! a.
Proof.
  revert m. induction l as [ | t l IH]; intros m Ha; simpl; [done | ].
  apply not_elem_of_cons in Ha as [Hat Ha].
  rewrite IH by done. by apply mulAssign_lookup_ne.
Qed.

Lemma foldl_mulAssign_lookup f l (m : gmap string number) a x :
  m !! a = Some x -> foldl (mulAssign f) m l !! a = Some (times f l a x).
Proof.
  revert m x. induction l as [ | t l IH]; intros m x Hm; simpl; [done | ].
  case_decide as Hta.
  - subst t. apply IH. by apply mulAssign_lookup_eq.
  - apply IH. by rewrite mulAssign_lookup_ne.
Qed.

Lemma foldl_mulAssign_dom f l (m : gmap string number) :
  (forall t, t ∈ l -> t ∈ dom m) -> dom (foldl (mulAssign f) m l) = dom m.
Proof.
  revert m. induction l as [ | t l IH]; intros m Hl; simpl; [done | ].
  assert (dom (mulAssign f m t) = dom m) as Hd
    by (apply mulAssign_dom, Hl; left).
  rewrite IH; [done | ]. intros t' Ht'. rewrite Hd. apply Hl. by right.
Qed.

Lemma times_notin f l a x : a ∉ l -> times f l a x = x.
Proof.
  revert x. induction l as [ | t l IH]; intros x Ha; simpl; [done | ].
  apply not_elem_of_cons in Ha as [Hat Ha].
  unfold times in *. simpl. rewrite decide_False by done. by apply IH.
Qed.

Lemma pairing_keys {A : Type} (v : string -> A) (l : list string) :
  ((fun a => (a, v a)) <$> l).*1 = l.
Proof. induction l as [ | a l IH]; simpl; [done | by f_equal]. Qed.

Lemma matchupsOf_lookup v a :
  matchupsOf v !! a = if includes a allTypes then Some (v a) else None.
Proof.
  unfold matchupsOf. destruct (includes a allTypes) eqn:Ha.
  - apply includes_true in Ha. apply elem_of_list_to_map_1.
    + rewrite pairing_keys. apply allTypes_NoDup.
    + apply list_elem_of_fmap. by exists a.
  - apply includes_false in Ha. apply not_elem_of_list_to_map_1.
    by rewrite pairing_keys.
Qed.

Lemma matchupsOf_lookup_canonical v a :
  a ∈ allTypes -> matchupsOf v !! a = Some (v a).
Proof.
  intros Ha. rewrite matchupsOf_lookup.
  by rewrite (proj2 (includes_true _ _) Ha).
Qed.

Lemma matchupsOf_dom v : dom (matchupsOf v) = list_to_set allTypes.
Proof.
  unfold matchupsOf. by rewrite dom_list_to_map_L, pairing_keys.
Qed.

Lemma matchupsOf_ext v w :
  (forall a, a ∈ allTypes -> v a = w a) -> matchupsOf v = matchupsOf w.
Proof.
  intros H. apply map_eq. intros a. rewrite !matchupsOf_lookup.
  destruct (includes a allTypes) eqn:Ha; [ | done].
  f_equal. apply H. by apply includes_true.
Qed.

Lemma foldl_insert_lookup (x : number) l (m : gmap string number) a :
  foldl (fun m t => <[t := x]> m) m l !! a
  = if includes a l then Some x else m !! a.
Proof.
  revert m. induction l as [ | t l IH]; intros m; simpl; [done | ].
  rewrite IH. destruct (includes a l) eqn:Hl.
  - apply includes_true in Hl.
    rewrite (proj2 (includes_true a (t :: l))); [done | by right].
  - apply includes_false in Hl. destruct (decide (t = a)) as [-> | Hne].
    + rewrite lookup_insert_eq.
      rewrite (proj2 (includes_true a (a :: l))); [done | left].
    + rewrite lookup_insert_ne by done.
      rewrite (proj2 (includes_false a (t :: l))); [done | ].
      apply not_elem_of_cons. by split.
Qed.

Lemma initial_matchupsOf : initial = matchupsOf (fun _ => one).
Proof.
  apply map_eq. intros a. unfold initial.
  rewrite foldl_insert_lookup, matchupsOf_lookup, lookup_empty.
  done.
Qed.

(** * The loop over the defending types *)

Lemma defend_Entry v d data :
  TYPE_CHART_get (toLowerCase d) = Entry data ->
  defend (matchupsOf v) d
  = Return (matchupsOf (fun a => entryEffect data a (v a))).
Proof.
  intros Hget. unfold defend. rewrite Hget. f_equal.
  apply get_Entry_elem in Hget.
  apply map_eq. intros a. rewrite (matchupsOf_lookup _ a).
  destruct (includes a allTypes) eqn:Ha.
  - unfold entryEffect.
    erewrite foldl_mulAssign_lookup; [done | ].
    erewrite foldl_mulAssign_lookup; [done | ].
    erewrite foldl_mulAssign_lookup; [done | ].
    rewrite matchupsOf_lookup. by rewrite Ha.
  - apply includes_false in Ha.
    assert (a ∉ double data ++ half data ++ zero data) as Hnot
      by (intros Hin; apply Ha; eapply table_closed; eauto).
    rewrite !not_elem_of_app in Hnot. destruct Hnot as (Hd & Hh & Hz).
    rewrite !foldl_mulAssign_notin by done.
    rewrite matchupsOf_lookup.
    by rewrite (proj2 (includes_false _ _) Ha).
Qed.

Lemma defend_step v d :
  throws d = false ->
  defend (matchupsOf v) d = Return (matchupsOf (fun a => step a (v a) d)).
Proof.
  unfold throws, step.
  destruct (TYPE_CHART_get (toLowerCase d)) as [data | | ] eqn:Hget;
    intros Hthrows; try done.
  - by apply defend_Entry.
  - unfold defend. by rewrite Hget.
Qed.

Lemma defend_throws m d : throws d = true -> defend m d = Throw TypeError.
Proof.
  unfold throws, defend.
  by destruct (TYPE_CHART_get (toLowerCase d)).
Qed.

Lemma forEach_plain types v :
  plain types = true ->
  forEach (matchupsOf v) types
  = (matchupsOf (fun a => foldl (step a) (v a) types), None).
Proof.
  revert v. induction types as [ | d types IH]; intros v Hplain; simpl.
  - done.
  - simpl in Hplain. apply andb_true_iff in Hplain as [Hd Hplain].
    apply negb_true_iff in Hd.
    rewrite defend_step by done. by rewrite IH.
Qed.

Lemma forEach_not_plain types v :
  plain types = false ->
  exists m, forEach (matchupsOf v) types = (m, Some TypeError).
Proof.
  revert v. induction types as [ | d types IH]; intros v Hplain; simpl.
  - done.
  - simpl in Hplain. destruct (throws d) eqn:Hd.
    + rewrite defend_throws by done. eauto.
    + rewrite defend_step by done. apply IH. by simpl in Hplain.
Qed.

(** The call in closed form: it throws on a list that is not plain, and
    otherwise returns the object of the multipliers. *)
Lemma calculateDefensiveMatchups_eq types :
  calculateDefensiveMatchups types
  = if plain types then Return (matchupsOf (multiplier types))
    else Throw TypeError.
Proof.
  unfold calculateDefensiveMatchups. rewrite initial_matchupsOf.
  destruct (plain types) eqn:Hplain.
  - by rewrite forEach_plain.
  - by destruct (forEach_not_plain types (fun _ => one) Hplain) as [m ->].
Qed.

(** At the end of every run, returning or throwing, the object owns the
    canonical types and nothing else. *)
Lemma forEach_dom types (m : gmap string number) :
  dom m = list_to_set allTypes ->
  dom (forEach m types).1 = list_to_set allTypes.
Proof.
  revert m. induction types as [ | d types IH]; intros m Hm; simpl; [done | ].
  unfold defend.
  destruct (TYPE_CHART_get (toLowerCase d)) as [data | | ] eqn:Hget.
  - apply IH. apply get_Entry_elem in Hget.
    assert (forall t, t ∈ double data ++ half data ++ zero data ->
                      t ∈ dom m) as Hin.
    { intros t Ht. rewrite Hm. apply elem_of_list_to_set.
      eapply table_closed; eauto. }
    assert (forall t, t ∈ double data -> t ∈ dom m) as Hd
      by (intros t Ht; apply Hin; rewrite !elem_of_app; auto).
    assert (forall t, t ∈ half data -> t ∈ dom m) as Hh
      by (intros t Ht; apply Hin; rewrite !elem_of_app; auto).
    assert (forall t, t ∈ zero data -> t ∈ dom m) as Hz
      by (intros t Ht; apply Hin; rewrite !elem_of_app; auto).
    assert (dom (foldl (mulAssign two) m (double data)) = dom m) as E1
      by (by apply foldl_mulAssign_dom).
    assert (dom (foldl (mulAssign one_half)
                   (foldl (mulAssign two) m (double data)) (half data))
            = dom m) as E2.
    { rewrite foldl_mulAssign_dom; [done | ].
      intros t Ht. rewrite E1. by apply Hh. }
    rewrite foldl_mulAssign_dom; [by rewrite E2 | ].
    intros t Ht. rewrite E2. by apply Hz.
  - done.
  - by apply IH.
Qed.

(** * Factors *)

Lemma times_relation f l a x :
  NoDup l -> times f l a x = foldl mul x (relation f l a).
Proof.
  revert x. induction l as [ | t l IH]; intros x Hnd.
  - done.
  - apply NoDup_cons in Hnd as [Ht Hnd]. unfold times, relation. simpl.
    destruct (decide (t = a)) as [-> | Hne].
    + rewrite (proj2 (includes_true a (a :: l))) by left.
      simpl. by apply times_notin.
    + fold (times f l a x). rewrite IH by done. unfold relation.
      destruct (includes a l) eqn:Hl.
      * apply includes_true in Hl.
        rewrite (proj2 (includes_true a (t :: l))); [done | by right].
      * apply includes_false in Hl.
        rewrite (proj2 (includes_false a (t :: l))); [done | ].
        apply not_elem_of_cons. split; [done | done].
Qed.

Lemma entryEffect_factors data a x :
  NoDup (double data ++ half data ++ zero data) ->
  entryEffect data a x = foldl mul x (entryFactors data a).
Proof.
  intros Hnd. apply NoDup_app in Hnd as (Hd & _ & Hnd).
  apply NoDup_app in Hnd as (Hh & _ & Hz).
  unfold entryEffect, entryFactors. rewrite !foldl_app.
  by rewrite !times_relation.
Qed.

Lemma get_not_Entry k :
  (forall data, TYPE_CHART_get k <> Entry data) -> own TYPE_CHART k = None.
Proof.
  intros H. destruct (own TYPE_CHART k) as [data | ] eqn:Hown; [ | done].
  exfalso. apply (H data). by apply get_Entry.
Qed.

Lemma step_factors a x d :
  step a x d
  = foldl mul x match own TYPE_CHART (toLowerCase d) with
                | Some data => entryFactors data a
                | None => []
                end.
Proof.
  unfold step.
  destruct (TYPE_CHART_get (toLowerCase d)) as [data | | ] eqn:Hget.
  - rewrite (proj1 (get_Entry _ _) Hget).
    apply entryEffect_factors. apply get_Entry_elem in Hget.
    by eapply table_separate.
  - rewrite get_not_Entry; [done | ]. intros data. by rewrite Hget.
  - rewrite get_not_Entry; [done | ]. intros data. by rewrite Hget.
Qed.

Lemma factors_cons d types a :
  factors (d :: types) a
  = match own TYPE_CHART (toLowerCase d) with
    | Some data => entryFactors data a
    | None => []
    end ++ factors types a.
Proof. reflexivity. Qed.

Lemma foldl_step_factors a types x :
  foldl (step a) x types = foldl mul x (factors types a).
Proof.
  revert x. induction types as [ | d types IH]; intros x; [done | ].
  rewrite factors_cons, foldl_app, <- IH.
  change (foldl (step a) x (d :: types))
    with (foldl (step a) (step a x d) types).
  by rewrite step_factors.
Qed.

(** The multiplier of [a] is the product of its factors. *)
Lemma multiplier_product types a :
  multiplier types a = product (factors types a).
Proof. apply foldl_step_factors. Qed.

Lemma relation_factor f l a :
  isFactor f -> Forall isFactor (relation f l a).
Proof.
  intros Hf. unfold relation.
  destruct (includes a l); [by apply Forall_singleton | apply Forall_nil_2].
Qed.

Lemma entryFactors_factor data a : Forall isFactor (entryFactors data a).
Proof.
  unfold entryFactors. rewrite !Forall_app.
  repeat split; apply relation_factor; unfold isFactor; auto.
Qed.

(** An entry relates a type to an attacker in at most one way. *)
Lemma entryFactors_length data a :
  NoDup (double data ++ half data ++ zero data) ->
  (List.length (entryFactors data a) <= 1)%nat.
Proof.
  intros Hnd. apply NoDup_app in Hnd as (_ & Hdh & Hnd).
  apply NoDup_app in Hnd as (_ & Hhz & _).
  unfold entryFactors, relation.
  destruct (includes a (double data)) eqn:Hd.
  - apply includes_true in Hd. specialize (Hdh a Hd).
    apply not_elem_of_app in Hdh as [Hh Hz].
    rewrite (proj2 (includes_false _ _) Hh).
    by rewrite (proj2 (includes_false _ _) Hz).
  - destruct (includes a (half data)) eqn:Hh.
    + apply includes_true in Hh. specialize (Hhz a Hh).
      by rewrite (proj2 (includes_false _ _) Hhz).
    + destruct (includes a (zero data)); simpl; lia.
Qed.

Lemma factors_factor types a : Forall isFactor (factors types a).
Proof.
  induction types as [ | d types IH]; [apply Forall_nil_2 | ].
  rewrite factors_cons. apply Forall_app. split; [ | exact IH].
  destruct (own TYPE_CHART (toLowerCase d)); [ | apply Forall_nil_2].
  apply entryFactors_factor.
Qed.

Lemma factors_length types a :
  (List.length (factors types a) <= List.length types)%nat.
Proof.
  induction types as [ | d types IH]; [done | ].
  rewrite factors_cons, length_app.
  change (List.length (d :: types)) with (S (List.length types)).
  destruct (own TYPE_CHART (toLowerCase d)) as [data | ] eqn:Hown.
  - apply own_Some_elem, table_separate in Hown.
    pose proof (entryFactors_length data a Hown). lia.
  - change (List.length (@nil number)) with 0%nat. lia.
Qed.

Lemma factors_Permutation types1 types2 a :
  types1 ≡ₚ types2 -> factors types1 a ≡ₚ factors types2 a.
Proof. intros H. unfold factors. by rewrite H. Qed.

(** * Products within the range of the doubles *)

Lemma net_bounds fs :
  Forall isFactor fs ->
  - Z.of_nat (List.length fs) <= net fs <= Z.of_nat (List.length fs).
Proof.
  induction 1 as [ | f fs Hf _ IH]; simpl; [lia | ].
  destruct Hf as [-> | [-> | ->]]; simpl; lia.
Qed.

Lemma foldl_mul_Zero fs : Forall isFactor fs -> foldl mul Zero fs = Zero.
Proof.
  induction 1 as [ | f fs Hf _ IH]; simpl; [done | ].
  by destruct Hf as [-> | [-> | ->]].
Qed.

(** From a power of two, and while the exponent cannot leave the range of
    the doubles, the running product is exact. *)
Lemma foldl_mul_exact fs e :
  Forall isFactor fs ->
  Z.abs e + Z.of_nat (List.length fs) <= emax ->
  foldl mul (Pow2 e) fs = if hasZero fs then Zero else Pow2 (e + net fs).
Proof.
  intros Hfs. revert e.
  induction Hfs as [ | f fs Hf Hfs IH]; intros e He; simpl.
  - by rewrite Z.add_0_r.
  - simpl in He. unfold emax in *.
    destruct Hf as [-> | [-> | ->]]; simpl.
    + unfold round, emax, emin.
      rewrite (proj2 (Z.ltb_ge _ _)) by lia.
      rewrite (proj2 (Z.ltb_ge _ _)) by lia.
      rewrite IH by lia.
      destruct (hasZero fs); [done | f_equal; lia].
    + unfold round, emax, emin.
      rewrite (proj2 (Z.ltb_ge _ _)) by lia.
      rewrite (proj2 (Z.ltb_ge _ _)) by lia.
      rewrite IH by lia.
      destruct (hasZero fs); [done | f_equal; lia].
    + by apply foldl_mul_Zero.
Qed.

Lemma product_exact fs :
  Forall isFactor fs -> Z.of_nat (List.length fs) <= emax ->
  product fs = exact fs.
Proof.
  intros Hfs Hlen. unfold product, one, exact.
  rewrite foldl_mul_exact; [done | done | unfold emax in *; lia].
Qed.

Lemma net_Permutation fs gs : fs ≡ₚ gs -> net fs = net gs.
Proof.
  induction 1 as [ | f fs gs _ IH | f g fs | fs gs hs _ IH1 _ IH2]; simpl.
  - done.
  - by rewrite IH.
  - lia.
  - by rewrite IH1.
Qed.

Lemma hasZero_Permutation fs gs : fs ≡ₚ gs -> hasZero fs = hasZero gs.
Proof.
  induction 1 as [ | f fs gs _ IH | f g fs | fs gs hs _ IH1 _ IH2]; simpl.
  - done.
  - by rewrite IH.
  - by rewrite !orb_assoc, (orb_comm (bool_decide (f = Zero))).
  - by rewrite IH1.
Qed.

Lemma exact_Permutation fs gs : fs ≡ₚ gs -> exact fs = exact gs.
Proof.
  intros H. unfold exact.
  by rewrite (hasZero_Permutation _ _ H), (net_Permutation _ _ H).
Qed.

Lemma exact_multiplier fs :
  Forall isFactor fs -> Z.of_nat (List.length fs) <= emax ->
  is_multiplier (exact fs).
Proof.
  intros Hfs Hlen. unfold exact. destruct (hasZero fs); simpl; [done | ].
  pose proof (net_bounds fs Hfs). unfold emin, emax in *. lia.
Qed.

(** On at most 1023 types the multiplier is the exact product. *)
Lemma multiplier_exact types a :
  (List.length types <= 1023)%nat ->
  multiplier types a = exact (factors types a).
Proof.
  intros Hlen. rewrite multiplier_product. apply product_exact.
  - apply factors_factor.
  - pose proof (factors_length types a). unfold emax. lia.
Qed.

Lemma plain_Permutation types1 types2 :
  types1 ≡ₚ types2 -> plain types1 = plain types2.
Proof.
  unfold plain.
  induction 1 as [ | d l1 l2 _ IH | d1 d2 l | l1 l2 l3 _ IH1 _ IH2]; simpl.
  - done.
  - by rewrite IH.
  - by rewrite !andb_assoc, (andb_comm (negb (throws d2))).
  - by rewrite IH1.
Qed.

Lemma mul_double x y : is_double (mul x y).
Proof.
  destruct x as [ | | | a], y as [ | | | b]; simpl; try done.
  unfold round. destruct (emax <? a + b) eqn:H1; [done | ].
  destruct (a + b <? emin) eqn:H2; [done | ]. simpl. lia.
Qed.

Lemma product_double fs : is_double (product fs).
Proof.
  unfold product. destruct fs as [ | f fs _] using rev_ind.
  - simpl. unfold emin, emax. lia.
  - rewrite foldl_app. apply mul_double.
Qed.

(** * The offensive strengths *)

Lemma add_elem strengths defType d :
  d ∈ add strengths defType <-> d ∈ strengths \/ d = defType.
Proof.
  unfold add. destruct (includes defType strengths) eqn:H.
  - apply includes_true in H. split; [by left | by intros [? | ->]].
  - rewrite elem_of_app, list_elem_of_singleton. done.
Qed.

Lemma add_NoDup strengths defType :
  NoDup strengths -> NoDup (add strengths defType).
Proof.
  intros Hnd. unfold add. destruct (includes defType strengths) eqn:H.
  - done.
  - apply includes_false in H. apply NoDup_app. repeat split.
    + done.
    + intros x Hx Hx'. apply list_elem_of_singleton in Hx'. by subst.
    + apply NoDup_singleton.
Qed.

Lemma scanEntry_elem atkType chart strengths d :
  d ∈ foldl (scanEntry atkType) strengths chart <->
  d ∈ strengths \/
  exists data, (d, data) ∈ chart /\ toLowerCase atkType ∈ double data.
Proof.
  revert strengths.
  induction chart as [ | [k data] chart IH]; intros strengths.
  - simpl. split; [by left | ]. intros [H | (data & H & _)]; [done | ].
    by apply elem_of_nil in H.
  - simpl. rewrite IH.
    destruct (includes (toLowerCase atkType) (double data)) eqn:Hin.
    + apply includes_true in Hin. rewrite add_elem. split.
      * intros [[H | ->] | (data' & H & H')].
        -- by left.
        -- right. exists data. split; [left | done].
        -- right. exists data'. split; [by right | done].
      * intros [H | (data' & H & H')]; [by left; left | ].
        apply elem_of_cons in H as [[= -> ->] | H].
        -- left. by right.
        -- right. by exists data'.
    + apply includes_false in Hin. split.
      * intros [H | (data' & H & H')]; [by left | ].
        right. exists data'. split; [by right | done].
      * intros [H | (data' & H & H')]; [by left | ].
        apply elem_of_cons in H as [[= -> ->] | H]; [done | ].
        right. by exists data'.
Qed.

Lemma scanEntry_NoDup atkType chart strengths :
  NoDup strengths -> NoDup (foldl (scanEntry atkType) strengths chart).
Proof.
  revert strengths.
  induction chart as [ | [k data] chart IH]; intros strengths Hnd; [done | ].
  simpl. apply IH.
  destruct (includes (toLowerCase atkType) (double data));
    [by apply add_NoDup | done].
Qed.

Lemma scan_elem atkType strengths d :
  d ∈ scan atkType strengths <->
  d ∈ strengths \/
  exists data, (d, data) ∈ TYPE_CHART /\ toLowerCase atkType ∈ double data.
Proof. unfold scan. apply scanEntry_elem. Qed.

Lemma foldl_scan_elem attackerTypes strengths d :
  d ∈ foldl (fun strengths atkType => scan atkType strengths)
        strengths attackerTypes <->
  d ∈ strengths \/
  exists t data,
    t ∈ attackerTypes /\ (d, data) ∈ TYPE_CHART /\
    toLowerCase t ∈ double data.
Proof.
  revert strengths.
  induction attackerTypes as [ | t0 attackerTypes IH]; intros strengths.
  - simpl. split; [by left | ]. intros [H | (t & data & H & _)]; [done | ].
    by apply elem_of_nil in H.
  - change (foldl (fun strengths atkType => scan atkType strengths)
              strengths (t0 :: attackerTypes))
      with (foldl (fun strengths atkType => scan atkType strengths)
              (scan t0 strengths) attackerTypes).
    rewrite IH, scan_elem. split.
    + intros [[H | (data & H & H')] | (t & data & H & H' & H'')].
      * by left.
      * right. exists t0, data. split; [left | done].
      * right. exists t, data. split; [by right | done].
    + intros [H | (t & data & H & H' & H'')]; [by left; left | ].
      apply elem_of_cons in H as [-> | H].
      * left. right. by exists data.
      * right. by exists t, data.
Qed.

Lemma foldl_scan_NoDup attackerTypes strengths :
  NoDup strengths ->
  NoDup (foldl (fun strengths atkType => scan atkType strengths)
           strengths attackerTypes).
Proof.
  revert strengths.
  induction attackerTypes as [ | t0 attackerTypes IH]; intros strengths Hnd;
    [done | ].
  apply IH. unfold scan. by apply scanEntry_NoDup.
Qed.

Lemma canonical_lower t : t ∈ allTypes -> toLowerCase t = t.
Proof.
  intros Ht.
  assert (forallb (fun t => bool_decide (toLowerCase t = t)) allTypes = true)
    as H by (by vm_compute).
  rewrite forallb_forall in H. apply list_elem_of_In in Ht.
  specialize (H _ Ht). by apply bool_decide_eq_true in H.
Qed.

(** * The defensive matchups: results *)

Lemma calculateDefensiveMatchups_plain types :
  plain types = true ->
  calculateDefensiveMatchups types = Return (matchupsOf (multiplier types)).
Proof. intros H. by rewrite calculateDefensiveMatchups_eq, H. Qed.

Lemma matchupsOf_lookup_Some v a x :
  matchupsOf v !! a = Some x -> a ∈ allTypes /\ x = v a.
Proof.
  rewrite matchupsOf_lookup. destruct (includes a allTypes) eqn:Ha; [ | done].
  intros [= <-]. split; [by apply includes_true | done].
Qed.

(** C2. [getOffensiveStrengths(["water"])] is exactly fire, ground and
    rock, the types whose own entry lists water in its [double] list, and
    not water's own [double] list, electric and grass. In general a type
    [d] is in the result exactly when some supplied attacker, lower-cased,
    appears in the [double] list of [d]'s entry; the result has no
    duplicates; and lower-casing leaves a canonical type as it is. *)
Theorem getOffensiveStrengths_inverse :
  getOffensiveStrengths ["water"] = ["fire"; "ground"; "rock"]
  /\ double <$> own TYPE_CHART "water" = Some ["electric"; "grass"]
  /\ getOffensiveStrengths ["water"] <> ["electric"; "grass"]
  /\ (forall attackerTypes d,
        d ∈ getOffensiveStrengths attackerTypes <->
        exists t data,
          t ∈ attackerTypes /\ (d, data) ∈ TYPE_CHART /\
          toLowerCase t ∈ double data)
  /\ (forall attackerTypes, NoDup (getOffensiveStrengths attackerTypes))
  /\ (forall t, t ∈ allTypes -> toLowerCase t = t).
Proof.
  split; [by vm_compute | ].
  split; [by vm_compute | ].
  split; [by vm_compute | ].
  split; [ | split].
  - intros attackerTypes d. unfold getOffensiveStrengths.
    rewrite foldl_scan_elem. split; [ | by right].
    intros [H | H]; [by apply elem_of_nil in H | done].
  - intros attackerTypes. apply foldl_scan_NoDup, NoDup_nil_2.
  - apply canonical_lower.
Qed.

(** C3, as amended. Two lists of defending types that are permutations
    of each other, of at most 1023 identifiers, give the same outcome of
    [calculateDefensiveMatchups]: equal mappings, entry by entry, when the
    call returns. *)
Theorem calculateDefensiveMatchups_permutation (types1 types2 : list string) :
  types1 ≡ₚ types2 ->
  (List.length types1 <= 1023)%nat ->
  calculateDefensiveMatchups types1 = calculateDefensiveMatchups types2.
Proof.
  intros Hperm Hlen.
  assert (List.length types2 <= 1023)%nat as Hlen2
    by (by rewrite <- (Permutation_length Hperm)).
  rewrite !calculateDefensiveMatchups_eq, (plain_Permutation _ _ Hperm).
  destruct (plain types2); [ | done]. f_equal.
  apply matchupsOf_ext. intros a _.
  rewrite !multiplier_exact by done.
  by apply exact_Permutation, factors_Permutation.
Qed.

(** The instance of the specification: fire and flying, in either
    order. *)
Lemma calculateDefensiveMatchups_permutation_witness :
  calculateDefensiveMatchups ["fire"; "flying"]
  = calculateDefensiveMatchups ["flying"; "fire"].
Proof.
  apply (calculateDefensiveMatchups_permutation ["fire"; "flying"]
           ["flying"; "fire"]).
  - apply perm_swap.
  - simpl. lia.
Defined.

(** C3 as stated fails on long lists: 1024 times water and then grass
    leaves electric at +Infinity (the overflow of [2^1024], which the
    halving does not undo), while grass first and then 1024 times water
    leaves it at [2^1023]. *)
Lemma calculateDefensiveMatchups_permutation_overflow :
  replicate 1024 "water" ++ ["grass"] ≡ₚ "grass" :: replicate 1024 "water"
  /\ entry (calculateDefensiveMatchups (replicate 1024 "water" ++ ["grass"]))
       "electric" = Some Infinity
  /\ entry (calculateDefensiveMatchups ("grass" :: replicate 1024 "water"))
       "electric" = Some (Pow2 1023)
  /\ calculateDefensiveMatchups (replicate 1024 "water" ++ ["grass"])
     <> calculateDefensiveMatchups ("grass" :: replicate 1024 "water").
Proof.
  assert (entry (calculateDefensiveMatchups
                   (replicate 1024 "water" ++ ["grass"]))
            "electric" = Some Infinity) as H1 by (by vm_compute).
  assert (entry (calculateDefensiveMatchups
                   ("grass" :: replicate 1024 "water"))
            "electric" = Some (Pow2 1023)) as H2 by (by vm_compute).
  split; [ | split; [done | split; [done | ]]].
  - symmetry. apply Permutation_cons_append.
  - intros Heq. rewrite Heq in H1. congruence.
Qed.

(** C4, as amended. On every list of defending types, of any length, in
    which no identifier, lower-cased, names a property that the table
    inherits, [calculateDefensiveMatchups] returns a mapping whose keys are
    exactly the 18 canonical types and whose values are doubles; on a list
    of at most 1023 identifiers every value is a non-negative multiplier,
    [0] or a power of two. *)
Theorem calculateDefensiveMatchups_total (types : list string) :
  plain types = true ->
  exists matchups,
    calculateDefensiveMatchups types = Return matchups
    /\ dom matchups = list_to_set allTypes
    /\ (forall a, is_Some (matchups !! a) <-> a ∈ allTypes)
    /\ (List.length allTypes = 18%nat /\ NoDup allTypes)
    /\ (forall a x, matchups !! a = Some x -> is_double x)
    /\ ((List.length types <= 1023)%nat ->
        forall a x, matchups !! a = Some x -> is_multiplier x).
Proof.
  intros Hplain. exists (matchupsOf (multiplier types)).
  split; [by apply calculateDefensiveMatchups_plain | ].
  split; [apply matchupsOf_dom | ].
  split; [ | split; [ | split]].
  - intros a. rewrite <- elem_of_dom, matchupsOf_dom.
    apply elem_of_list_to_set.
  - split; [apply allTypes_length | apply allTypes_NoDup].
  - intros a x [_ ->]%matchupsOf_lookup_Some.
    rewrite multiplier_product. apply product_double.
  - intros Hlen a x [_ ->]%matchupsOf_lookup_Some.
    rewrite multiplier_exact by done. apply exact_multiplier.
    + apply factors_factor.
    + pose proof (factors_length types a). unfold emax. lia.
Qed.

Lemma calculateDefensiveMatchups_total_witness :
  exists matchups,
    calculateDefensiveMatchups ["fire"; "Flying"; "unobtainium"]
    = Return matchups
    /\ dom matchups = list_to_set allTypes
    /\ (forall a, is_Some (matchups !! a) <-> a ∈ allTypes)
    /\ (List.length allTypes = 18%nat /\ NoDup allTypes)
    /\ (forall a x, matchups !! a = Some x -> is_double x)
    /\ ((List.length ["fire"; "Flying"; "unobtainium"] <= 1023)%nat ->
        forall a x, matchups !! a = Some x -> is_multiplier x).
Proof.
  apply (calculateDefensiveMatchups_total ["fire"; "Flying"; "unobtainium"]).
  reflexivity.
Defined.

(** C4 as stated fails in two ways. After 1024 times normal the entry of
    fighting has overflowed to +Infinity, and ghost then multiplies it by
    [0]: the value is NaN, which is no multiplier. And on the unknown
    identifier [constructor] the call returns no mapping at all. *)
Lemma calculateDefensiveMatchups_not_total :
  entry (calculateDefensiveMatchups (replicate 1024 "normal" ++ ["ghost"]))
    "fighting" = Some NaN
  /\ ~ is_multiplier NaN
  /\ unknown "constructor"
  /\ calculateDefensiveMatchups ["constructor"] = Throw TypeError.
Proof.
  split; [by vm_compute | ].
  split; [intros H; exact H | ].
  split; [ | by vm_compute].
  unfold unknown. apply (bool_decide_unpack _). by vm_compute.
Qed.

(** C5. The multipliers compound by multiplication from [1]: normal
    against ghost and poison against steel are [0], electric against
    water and grass is [2 * 0.5 = 1], fire against grass and bug is
    [2 * 2 = 4]; and in general the entry of a canonical type [a] is the
    product, from [1], of the factors of [a], one factor [2], [0.5] or [0]
    for each relationship of a defending type to [a] (the call returning
    exactly on the plain lists). *)
Theorem multipliers_compound :
  entry (calculateDefensiveMatchups ["ghost"]) "normal" = Some Zero
  /\ entry (calculateDefensiveMatchups ["steel"]) "poison" = Some Zero
  /\ entry (calculateDefensiveMatchups ["water"; "grass"]) "electric"
     = Some one
  /\ factors ["water"; "grass"] "electric" = [two; one_half]
  /\ entry (calculateDefensiveMatchups ["grass"; "bug"]) "fire"
     = Some (Pow2 2)
  /\ (forall types a, Forall isFactor (factors types a))
  /\ (forall types a,
        a ∈ allTypes ->
        entry (calculateDefensiveMatchups types) a
        = if plain types then Some (product (factors types a)) else None).
Proof.
  split; [by vm_compute | ].
  split; [by vm_compute | ].
  split; [by vm_compute | ].
  split; [by vm_compute | ].
  split; [by vm_compute | ].
  split; [apply factors_factor | ].
  intros types a Ha. rewrite calculateDefensiveMatchups_eq.
  destruct (plain types); [ | done]. simpl.
  by rewrite matchupsOf_lookup_canonical, multiplier_product.
Qed.

(** C8, at the failing input. The identifier [constructor] is outside the
    fixed set of types, yet the table inherits a property of that name:
    the lookup yields a function, the guard [!data] lets it pass, and the
    read of [data.double.forEach] throws. The empty list returns; the list
    with [constructor] inserted does not. *)
Theorem unknown_identifier_throws :
  unknown "constructor"
  /\ TYPE_CHART_get (toLowerCase "constructor") = Inherited
  /\ calculateDefensiveMatchups [] = Return initial
  /\ calculateDefensiveMatchups ["constructor"] = Throw TypeError
  /\ calculateDefensiveMatchups ["fire"; "Constructor"; "water"]
     = Throw TypeError.
Proof.
  split; [ | split; [by vm_compute | split; [done | ] ] ].
  - unfold unknown. apply (bool_decide_unpack _). by vm_compute.
  - split; by vm_compute.
Qed.

(** C10, as amended. The table is closed over its keys: every name in a
    [double], [half] or [zero] list is one of the 18 canonical types.
    Hence no update ever reaches a key that was not initialised: at the
    end of every run, returning or throwing, the object owns exactly the
    canonical types. And on every plain list of at most 1023 identifiers
    the call returns a mapping that gives each canonical type a finite
    number, [0] or a power of two. *)
Theorem table_closed_no_stray_update :
  (forall k data t,
     (k, data) ∈ TYPE_CHART ->
     t ∈ double data ++ half data ++ zero data -> t ∈ allTypes)
  /\ (forall a, a ∈ allTypes -> initial !! a = Some one)
  /\ (forall types,
        dom (forEach initial types).1 = list_to_set allTypes)
  /\ (forall types,
        plain types = true -> (List.length types <= 1023)%nat ->
        exists matchups,
          calculateDefensiveMatchups types = Return matchups /\
          forall a, a ∈ allTypes ->
            exists x, matchups !! a = Some x /\ is_multiplier x).
Proof.
  split; [apply table_closed | ].
  split; [ | split].
  - intros a Ha. rewrite initial_matchupsOf.
    by apply matchupsOf_lookup_canonical.
  - intros types. apply forEach_dom.
    rewrite initial_matchupsOf. apply matchupsOf_dom.
  - intros types Hplain Hlen. exists (matchupsOf (multiplier types)).
    split; [by apply calculateDefensiveMatchups_plain | ].
    intros a Ha. exists (multiplier types a).
    split; [by apply matchupsOf_lookup_canonical | ].
    rewrite multiplier_exact by done. apply exact_multiplier.
    + apply factors_factor.
    + pose proof (factors_length types a). unfold emax. lia.
Qed.

Lemma table_closed_no_stray_update_witness :
  exists matchups,
    calculateDefensiveMatchups ["steel"; "fairy"] = Return matchups /\
    forall a, a ∈ allTypes ->
      exists x, matchups !! a = Some x /\ is_multiplier x.
Proof.
  apply (proj2 (proj2 (proj2 table_closed_no_stray_update))
           ["steel"; "fairy"]).
  - reflexivity.
  - simpl. lia.
Defined.

(** C10 as stated fails: on [__proto__] the call returns no result, and
    after 1024 times electric the entry of ground is +Infinity, which
    flying then multiplies by [0], leaving NaN. *)
Lemma table_closed_result_undefined :
  calculateDefensiveMatchups ["__proto__"] = Throw TypeError
  /\ entry (calculateDefensiveMatchups
              (replicate 1024 "electric" ++ ["flying"])) "ground"
     = Some NaN
  /\ ~ is_multiplier NaN.
Proof.
  split; [by vm_compute | ]. split; [by vm_compute | intros H; exact H].
Qed.

(** * The roster *)

Import Home.

Lemma find_id_Some pokemon (team : list Pokemon) :
  id pokemon ∈ id <$> team ->
  exists p, List.find (fun p => id p =? id pokemon) team = Some p.
Proof.
  intros (p & Hp & Hin)%list_elem_of_fmap.
  destruct (List.find (fun p => id p =? id pokemon) team) as [q | ] eqn:Hfind;
    [by exists q | ].
  apply list_elem_of_In in Hin.
  pose proof (find_none _ _ Hfind p Hin) as Hnone. simpl in Hnone.
  apply Z.eqb_neq in Hnone. congruence.
Qed.

Lemma find_id_None pokemon (team : list Pokemon) :
  id pokemon ∉ id <$> team ->
  List.find (fun p => id p =? id pokemon) team = None.
Proof.
  intros Hnot.
  destruct (List.find (fun p => id p =? id pokemon) team) as [q | ] eqn:Hfind;
    [ | done].
  apply find_some in Hfind as [Hin Heq]. apply Z.eqb_eq in Heq.
  exfalso. apply Hnot. apply list_elem_of_fmap. exists q.
  split; [done | by apply list_elem_of_In].
Qed.

Lemma addToTeam_full pokemon (team : list Pokemon) :
  (6 <= List.length team)%nat ->
  addToTeam (Some pokemon) team = (team, Some boxFull).
Proof.
  intros Hlen. unfold addToTeam.
  by rewrite (proj2 (Nat.leb_le _ _) Hlen).
Qed.

Lemma addToTeam_duplicate pokemon (team : list Pokemon) :
  (List.length team < 6)%nat -> id pokemon ∈ id <$> team ->
  addToTeam (Some pokemon) team = (team, Some (alreadyCaught pokemon)).
Proof.
  intros Hlen Hin. unfold addToTeam.
  rewrite (proj2 (Nat.leb_gt _ _) Hlen).
  by destruct (find_id_Some pokemon team Hin) as [p ->].
Qed.

Lemma addToTeam_fresh pokemon (team : list Pokemon) :
  (List.length team < 6)%nat -> id pokemon ∉ id <$> team ->
  addToTeam (Some pokemon) team = (team ++ [pokemon], Some (gotcha pokemon)).
Proof.
  intros Hlen Hnot. unfold addToTeam.
  rewrite (proj2 (Nat.leb_gt _ _) Hlen).
  by rewrite (find_id_None pokemon team Hnot).
Qed.

Lemma removeFromTeam_elem i (team : list Pokemon) member :
  member ∈ removeFromTeam i team <-> member ∈ team /\ id member <> i.
Proof.
  unfold removeFromTeam. rewrite !list_elem_of_In, filter_In.
  rewrite negb_true_iff, Z.eqb_neq. done.
Qed.

Lemma removeFromTeam_absent i (team : list Pokemon) :
  i ∉ id <$> team -> removeFromTeam i team = team.
Proof.
  induction team as [ | p team IH]; intros Hnot; [done | ].
  rewrite fmap_cons in Hnot. apply not_elem_of_cons in Hnot as [Hne Hnot].
  unfold removeFromTeam in *. simpl.
  rewrite (proj2 (Z.eqb_neq (id p) i)) by done. simpl.
  by rewrite IH.
Qed.

Lemma removeFromTeam_length i (team : list Pokemon) :
  (List.length (removeFromTeam i team) <= List.length team)%nat.
Proof. apply filter_length_le. Qed.

Lemma removeFromTeam_NoDup i (team : list Pokemon) :
  NoDup (id <$> team) -> NoDup (id <$> removeFromTeam i team).
Proof.
  induction team as [ | p team IH]; intros Hnd; [done | ].
  rewrite fmap_cons in Hnd. apply NoDup_cons in Hnd as [Hp Hnd].
  unfold removeFromTeam in *. simpl.
  destruct (negb (id p =? i)); [ | by apply IH].
  rewrite fmap_cons. apply NoDup_cons. split; [ | by apply IH].
  intros (q & Hq & Hin)%list_elem_of_fmap.
  apply (removeFromTeam_elem i team q) in Hin as [Hin _].
  apply Hp. apply list_elem_of_fmap. by exists q.
Qed.

Lemma reachable_invariant (team : list Pokemon) :
  reachable team ->
  (List.length team <= 6)%nat /\ NoDup (id <$> team).
Proof.
  induction 1 as [ | pokemon team _ [IHlen IHnd] | i team _ [IHlen IHnd]
                   | team _ _].
  - split; [simpl; lia | apply NoDup_nil_2].
  - destruct pokemon as [pokemon | ]; [ | done].
    destruct (decide (6 <= List.length team)%nat) as [Hfull | Hroom].
    { by rewrite addToTeam_full. }
    destruct (decide (id pokemon ∈ id <$> team)) as [Hdup | Hfresh].
    { rewrite addToTeam_duplicate by (done || lia). done. }
    rewrite addToTeam_fresh by (done || lia). simpl. split.
    + rewrite length_app. simpl. lia.
    + rewrite fmap_app. apply NoDup_app. repeat split; [done | | ].
      * intros x Hx Hx'. simpl in Hx'. apply list_elem_of_singleton in Hx'.
        by subst.
      * simpl. apply NoDup_singleton.
  - split.
    + pose proof (removeFromTeam_length i team). lia.
    + by apply removeFromTeam_NoDup.
  - split; [simpl; lia | apply NoDup_nil_2].
Qed.

(** C6. With a subject loaded, [addToTeam] rejects the addition when the
    roster holds 6 members or holds the subject's identifying number: the
    roster is unchanged and a toast reports the conflict; otherwise it
    appends the subject. [removeFromTeam] keeps exactly the members with
    another identifying number, and changes nothing when no member has the
    number. Every roster that the handlers produce from the empty roster
    has at most 6 members, with pairwise distinct identifying numbers. *)
Theorem roster_operations :
  (forall pokemon team,
     (6 <= List.length team)%nat \/ id pokemon ∈ id <$> team ->
     (addToTeam (Some pokemon) team).1 = team /\
     reportsConflict (addToTeam (Some pokemon) team).2)
  /\ (forall pokemon team,
        (List.length team < 6)%nat -> id pokemon ∉ id <$> team ->
        addToTeam (Some pokemon) team
        = (team ++ [pokemon], Some (gotcha pokemon)))
  /\ (forall i team member,
        member ∈ removeFromTeam i team <-> member ∈ team /\ id member <> i)
  /\ (forall i team, i ∉ id <$> team -> removeFromTeam i team = team)
  /\ (forall team,
        reachable team ->
        (List.length team <= 6)%nat /\ NoDup (id <$> team)).
Proof.
  split; [ | split; [ | split; [ | split] ] ].
  - intros pokemon team Hcase.
    destruct (decide (6 <= List.length team)%nat) as [Hfull | Hroom].
    + rewrite addToTeam_full by done. split; [done | ].
      exists boxFull. split; [done | by left].
    + destruct Hcase as [Hfull | Hdup]; [done | ].
      rewrite addToTeam_duplicate by (done || lia). split; [done | ].
      exists (alreadyCaught pokemon). split; [done | by right].
  - apply addToTeam_fresh.
  - apply removeFromTeam_elem.
  - apply removeFromTeam_absent.
  - apply reachable_invariant.
Qed.

Lemma roster_operations_witness :
  let team := (fun i => entity i ["normal"]) <$> [1; 2; 3; 4; 5; 6] in
  (addToTeam (Some (entity 7 ["fire"])) team).1 = team /\
  reportsConflict (addToTeam (Some (entity 7 ["fire"])) team).2.
Proof.
  apply (proj1 roster_operations (entity 7 ["fire"])).
  left. simpl. lia.
Defined.

(** * The comparison *)

Lemma filterM_Return {A : Type} (f : A -> completion bool) (g : A -> bool)
    (l : list A) :
  (forall x, x ∈ l -> f x = Return (g x)) ->
  filterM f l = Return (List.filter g l).
Proof.
  induction l as [ | x l IH]; intros Hf; [done | ].
  simpl. rewrite (Hf x) by left. simpl.
  rewrite IH by (intros y Hy; apply Hf; by right). done.
Qed.

Lemma weakTo_plain strengths member :
  plain (typeNames member) = true ->
  weakTo strengths member
  = Return (existsb (exceeds1 (matchupsOf (multiplier (typeNames member))))
              strengths).
Proof.
  intros Hplain. unfold weakTo.
  by rewrite calculateDefensiveMatchups_plain.
Qed.

(** C1, as amended. For a subject whose single type is ghost, the
    offensive strengths are psychic and ghost, the types whose [double]
    list contains ghost. The weaknesses of the single type psychic are
    bug, ghost and dark, and every roster member whose single type is
    psychic is placed in the Risk set (on a roster of plain type names). *)
Theorem ghost_subject_risk :
  getOffensiveStrengths ["ghost"] = ["psychic"; "ghost"]
  /\ (forall d,
        d ∈ getOffensiveStrengths ["ghost"] <->
        exists data, (d, data) ∈ TYPE_CHART /\ "ghost" ∈ double data)
  /\ (exists matchups,
        calculateDefensiveMatchups ["psychic"] = Return matchups /\
        currentPokemonWeaknesses matchups ≡ₚ ["bug"; "ghost"; "dark"])
  /\ (forall subject team member,
        typeNames subject = ["ghost"] ->
        typeNames member = ["psychic"] ->
        member ∈ team ->
        (forall other, other ∈ team -> plain (typeNames other) = true) ->
        exists c,
          comparison (Some subject) team = Return c /\
          member ∈ teamDisadvantage c).
Proof.
  split; [by vm_compute | split; [ | split] ].
  - intros d. unfold getOffensiveStrengths.
    rewrite foldl_scan_elem. split.
    + intros [H | (t & data & Ht & Hd & Hin)]; [by apply elem_of_nil in H | ].
      apply list_elem_of_singleton in Ht. subst t. by exists data.
    + intros (data & Hd & Hin). right. exists "ghost", data.
      split; [by apply list_elem_of_singleton | done].
  - exists (matchupsOf (multiplier ["psychic"])).
    split; [by apply calculateDefensiveMatchups_plain | ].
    assert (currentPokemonWeaknesses (matchupsOf (multiplier ["psychic"]))
            = ["ghost"; "bug"; "dark"]) as -> by (by vm_compute).
    apply perm_swap.
  - intros subject team member Hsubject Hmember Hin Hplain.
    unfold comparison.
    change (currentTypes (Some subject)) with (typeNames subject).
    rewrite Hsubject.
    rewrite calculateDefensiveMatchups_plain by reflexivity. cbn [bind].
    rewrite (filterM_Return _
               (fun m => existsb
                  (exceeds1 (matchupsOf (multiplier (typeNames m))))
                  (getOffensiveStrengths ["ghost"])))
      by (intros other Hother; by apply weakTo_plain, Hplain).
    cbn [bind]. eexists. split; [reflexivity | ]. cbn [teamDisadvantage].
    apply list_elem_of_In, filter_In.
    split; [by apply list_elem_of_In | ].
    rewrite Hmember. by vm_compute.
Qed.

Lemma ghost_subject_risk_witness :
  exists c,
    comparison (Some (entity 94 ["ghost"]))
      [entity 65 ["psychic"]; entity 143 ["normal"]] = Return c /\
    entity 65 ["psychic"] ∈ teamDisadvantage c.
Proof.
  apply (proj2 (proj2 (proj2 ghost_subject_risk))
           (entity 94 ["ghost"])
           [entity 65 ["psychic"]; entity 143 ["normal"]]
           (entity 65 ["psychic"])).
  - reflexivity.
  - reflexivity.
  - left.
  - intros other Hother.
    apply elem_of_cons in Hother as [-> | Hother]; [reflexivity | ].
    apply list_elem_of_singleton in Hother. subst other. reflexivity.
Defined.

(** C1 as stated fails: the offensive strengths of ghost are psychic and
    ghost, and dark is not among them (the pair ghost, dark is ghost's own
    [double] list). And a member with the types normal and psychic is not
    placed in the Risk set. *)
Lemma ghost_strengths_not_ghost_dark :
  getOffensiveStrengths ["ghost"] = ["psychic"; "ghost"]
  /\ ("dark" ∉ getOffensiveStrengths ["ghost"])
  /\ ("psychic" ∈ getOffensiveStrengths ["ghost"])
  /\ double <$> own TYPE_CHART "ghost" = Some ["ghost"; "dark"]
  /\ (teamDisadvantage <$>
        entry_of (comparison (Some (entity 200 ["ghost"]))
                    [entity 203 ["normal"; "psychic"]]))
     = Some [].
Proof.
  split; [by vm_compute | ].
  split; [apply (bool_decide_unpack _); by vm_compute | ].
  split; [apply (bool_decide_unpack _); by vm_compute | ].
  split; by vm_compute.
Qed.


Lemma currentPokemonWeaknesses_neutral :
  currentPokemonWeaknesses (matchupsOf (multiplier [])) = [].
Proof. by vm_compute. Qed.

Lemma filter_no_weakness (team : list Pokemon) :
  List.filter
    (fun member => existsb (fun t => includes (type_name t) []) (types member))
    team = [].
Proof.
  induction team as [ | member team IH]; [done | ].
  simpl. rewrite IH.
  assert (existsb (fun t => includes (type_name t) []) (types member) = false)
    as ->; [ | done].
  induction (types member) as [ | t ts IHt]; [done | ].
  simpl. by rewrite IHt.
Qed.

Lemma filter_never {A : Type} (l : list A) : List.filter (fun _ => false) l = [].
Proof. induction l as [ | x l IH]; [done | done]. Qed.

(** With no subject, or with an empty roster, both sets are empty,
    provided the type names involved are plain. *)
Lemma comparison_empty :
  (forall team,
     (forall member, member ∈ team -> plain (typeNames member) = true) ->
     comparison None team
     = Return {| teamAdvantage := []; teamDisadvantage := [] |})
  /\ (forall subject,
        plain (typeNames subject) = true ->
        comparison (Some subject) []
        = Return {| teamAdvantage := []; teamDisadvantage := [] |}).
Proof.
  split.
  - intros team Hplain. unfold comparison.
    change (currentTypes None) with (@nil string).
    rewrite calculateDefensiveMatchups_plain by reflexivity. cbn [bind].
    rewrite currentPokemonWeaknesses_neutral, filter_no_weakness.
    rewrite (filterM_Return _ (fun _ => false)).
    + cbn [bind]. by rewrite filter_never.
    + intros member Hmember. by rewrite weakTo_plain by (by apply Hplain).
  - intros subject Hplain. unfold comparison.
    change (currentTypes (Some subject)) with (typeNames subject).
    by rewrite calculateDefensiveMatchups_plain by done.
Qed.

(** C7, at the failing inputs. With no subject, a roster member whose
    type name is [constructor] makes the comparison throw, since the
    filter computes the member's matchups before it looks at the empty
    list of strengths; and a subject of that type name makes it throw on
    the empty roster. *)
Theorem comparison_throws :
  comparison None [entity 1 ["constructor"]] = Throw TypeError
  /\ comparison None [entity 1 ["water"]; entity 2 ["__proto__"]]
     = Throw TypeError
  /\ comparison (Some (entity 1 ["constructor"])) [] = Throw TypeError.
Proof. split; [by vm_compute | split; by vm_compute]. Qed.

(** * Unknown identifiers *)

Lemma unknown_double_free u k data :
  unknown u -> (k, data) ∈ TYPE_CHART -> toLowerCase u ∉ double data.
Proof.
  intros Hu Hk Hin. apply Hu. apply (table_closed k data); [done | ].
  apply elem_of_app. by left.
Qed.

Lemma scanEntry_unknown u chart strengths :
  (forall k data, (k, data) ∈ chart -> toLowerCase u ∉ double data) ->
  foldl (scanEntry u) strengths chart = strengths.
Proof.
  revert strengths.
  induction chart as [ | [k data] chart IH]; intros strengths Hfree; [done | ].
  simpl. rewrite (proj2 (includes_false _ _) (Hfree k data ltac:(left))).
  apply IH. intros k' data' Hin. apply (Hfree k' data'). by right.
Qed.

Lemma scan_unknown u strengths : unknown u -> scan u strengths = strengths.
Proof.
  intros Hu. unfold scan. apply scanEntry_unknown.
  intros k data. by apply unknown_double_free.
Qed.

(** An unknown identifier contributes nothing to the offensive strengths,
    wherever it stands in the list. *)
Lemma getOffensiveStrengths_unknown l1 l2 u :
  unknown u ->
  getOffensiveStrengths (l1 ++ u :: l2) = getOffensiveStrengths (l1 ++ l2).
Proof.
  intros Hu. unfold getOffensiveStrengths. rewrite !foldl_app.
  change (foldl (fun strengths atkType => scan atkType strengths)
            (foldl (fun strengths atkType => scan atkType strengths) [] l1)
            (u :: l2))
    with (foldl (fun strengths atkType => scan atkType strengths)
            (scan u (foldl (fun strengths atkType => scan atkType strengths)
                       [] l1)) l2).
  by rewrite scan_unknown.
Qed.

Lemma getOffensiveStrengths_unknown_witness :
  getOffensiveStrengths (["water"] ++ "constructor" :: ["ghost"])
  = getOffensiveStrengths (["water"] ++ ["ghost"]).
Proof.
  apply (getOffensiveStrengths_unknown ["water"] ["ghost"] "constructor").
  unfold unknown. apply (bool_decide_unpack _). by vm_compute.
Defined.

Lemma plain_app l1 l2 : plain (l1 ++ l2) = plain l1 && plain l2.
Proof. unfold plain. apply forallb_app. Qed.

(** An unknown identifier that names no inherited property contributes
    nothing to the defensive matchups, wherever it stands in the list. *)
Lemma calculateDefensiveMatchups_unknown l1 l2 u :
  TYPE_CHART_get (toLowerCase u) = Undefined ->
  calculateDefensiveMatchups (l1 ++ u :: l2)
  = calculateDefensiveMatchups (l1 ++ l2).
Proof.
  intros Hu. rewrite !calculateDefensiveMatchups_eq, !plain_app.
  change (plain (u :: l2)) with (negb (throws u) && plain l2).
  assert (throws u = false) as -> by (unfold throws; by rewrite Hu).
  simpl. destruct (plain l1 && plain l2); [ | done]. f_equal.
  apply matchupsOf_ext. intros a _. unfold multiplier. rewrite !foldl_app.
  change (foldl (step a) (foldl (step a) one l1) (u :: l2))
    with (foldl (step a) (step a (foldl (step a) one l1) u) l2).
  unfold step at 2. by rewrite Hu.
Qed.

Lemma calculateDefensiveMatchups_unknown_witness :
  calculateDefensiveMatchups (["fire"] ++ "Shadow" :: ["flying"])
  = calculateDefensiveMatchups (["fire"] ++ ["flying"]).
Proof.
  apply (calculateDefensiveMatchups_unknown ["fire"] ["flying"] "Shadow").
  reflexivity.
Defined.

(** * The retrieval call *)

Import PokeApi.

Lemma falsy_orOne query : falsy query = true -> orOne query = QNumber 1.
Proof. intros H. unfold orOne. by rewrite H. Qed.

Lemma truthy_string s : s <> "" -> orOne (QString s) = QString s.
Proof. intros Hs. by destruct s. Qed.

(** C9. [getPokemon] requests id 1 on every falsy query, the empty
    string and the number 0 among them; on every other string it requests
    the lower-cased string, so that two spellings of a name that differ in
    case give the same request. It issues exactly one request, and it
    throws the error "Pokemon not found" exactly when that request
    resolves to a response that is not ok. *)
Theorem getPokemon_contract {J : Type} :
  falsy (QString "") = true /\ falsy (QNumber 0) = true
  /\ (forall query,
        falsy query = true ->
        exists k,
          getPokemon (J := J) query
          = Fetch J "https://pokeapi.co/api/v2/pokemon/1" k)
  /\ (forall s,
        s <> "" ->
        exists k,
          getPokemon (J := J) (QString s)
          = Fetch J (endpoint +:+ toLowerCase s) k)
  /\ (forall s1 s2,
        toLowerCase s1 = toLowerCase s2 -> s1 <> "" -> s2 <> "" ->
        getPokemon (J := J) (QString s1) = getPokemon (QString s2))
  /\ (forall query (remote : string -> Fetched J),
        exists url c,
          run remote (getPokemon query) = ([url], c) /\
          (c = Throw (Error "Pokemon not found") <->
           exists response,
             remote url = Resolved response /\ ok response = false)).
Proof.
  split; [done | split; [done | ] ].
  split; [ | split; [ | split] ].
  - intros query Hfalsy. unfold getPokemon.
    rewrite (falsy_orOne query Hfalsy). by eexists.
  - intros s Hs. unfold getPokemon. rewrite (truthy_string s Hs).
    by eexists.
  - intros s1 s2 Heq Hs1 Hs2. unfold getPokemon.
    rewrite (truthy_string s1 Hs1), (truthy_string s2 Hs2).
    unfold segment. by rewrite Heq.
  - intros query remote. unfold getPokemon.
    set (url := endpoint +:+ segment (orOne query)).
    exists url. cbn [run].
    destruct (remote url) as [ | response] eqn:Hremote.
    + eexists. split; [reflexivity | ].
      split; [done | by intros (response & Hr & _)].
    + destruct (ok response) eqn:Hok.
      * eexists. split; [reflexivity | ]. split.
        -- by destruct (json response).
        -- intros (response' & [= <-] & Hok'). congruence.
      * eexists. split; [reflexivity | ]. split; [ | done].
        intros _. by exists response.
Qed.

Lemma getPokemon_contract_witness :
  exists k,
    getPokemon (J := nat) (QString "PikaChu")
    = Fetch nat "https://pokeapi.co/api/v2/pokemon/pikachu" k.
Proof.
  apply (proj1 (proj2 (proj2 (proj2 (@getPokemon_contract nat))))
           "PikaChu").
  discriminate.
Defined.

(** * The page: buttons and slots *)

Import Page.

Lemma existsb_id pokemon (team : list Pokemon) :
  existsb (fun p => id p =? id pokemon) team = true <->
  id pokemon ∈ id <$> team.
Proof.
  rewrite existsb_exists. split.
  - intros (p & Hin & Heq). apply Z.eqb_eq in Heq.
    apply list_elem_of_fmap. exists p.
    split; [done | by apply list_elem_of_In].
  - intros (p & Heq & Hin)%list_elem_of_fmap. exists p.
    split; [by apply list_elem_of_In | by apply Z.eqb_eq].
Qed.

Lemma app_singleton_ne {A : Type} (l : list A) x : l ++ [x] <> l.
Proof.
  intros H. apply (f_equal List.length) in H.
  rewrite length_app in H. simpl in H. lia.
Qed.

(** The ADD button is disabled exactly when [addToTeam] would reject the
    subject: an enabled button always appends, a disabled one would leave
    the roster as it is; and the label reads CAUGHT exactly when the
    subject's number is in the roster. *)
Theorem add_button_agrees (pokemon : Pokemon) (team : list Pokemon) :
  (addDisabled pokemon team = false <->
   addToTeam (Some pokemon) team = (team ++ [pokemon], Some (gotcha pokemon)))
  /\ (addDisabled pokemon team = true <->
      (addToTeam (Some pokemon) team).1 = team)
  /\ (addLabel pokemon team = "CAUGHT" <-> id pokemon ∈ id <$> team).
Proof.
  assert (addDisabled pokemon team = true ->
          (addToTeam (Some pokemon) team).1 = team) as Hdis.
  { unfold addDisabled. intros [Hdup | Hfull]%orb_true_iff.
    - apply existsb_id in Hdup.
      destruct (decide (6 <= List.length team)%nat).
      + by rewrite addToTeam_full.
      + by rewrite addToTeam_duplicate by (done || lia).
    - apply Nat.leb_le in Hfull. by rewrite addToTeam_full. }
  assert (addDisabled pokemon team = false ->
          addToTeam (Some pokemon) team
          = (team ++ [pokemon], Some (gotcha pokemon))) as Hen.
  { unfold addDisabled. intros [Hdup Hfull]%orb_false_iff.
    apply Nat.leb_gt in Hfull. apply addToTeam_fresh; [done | ].
    intros Hin%existsb_id. congruence. }
  split; [ | split].
  - split; [done | ]. intros Hadd.
    destruct (addDisabled pokemon team) eqn:Hd; [ | done].
    specialize (Hdis eq_refl). rewrite Hadd in Hdis. simpl in Hdis.
    by apply app_singleton_ne in Hdis.
  - split; [done | ]. intros Hsame.
    destruct (addDisabled pokemon team) eqn:Hd; [done | ].
    rewrite (Hen eq_refl) in Hsame. simpl in Hsame.
    by apply app_singleton_ne in Hsame.
  - unfold addLabel. rewrite <- existsb_id.
    by destruct (existsb (fun p => id p =? id pokemon) team).
Qed.

Lemma slots_take (team : list Pokemon) :
  omap (fun slot : option Pokemon => slot) (slots team) = take 6 team.
Proof.
  by destruct team as [ | a [ | b [ | c [ | d [ | e [ | f [ | g rest] ] ] ] ] ] ].
Qed.

(** The party bar has six slots; on a roster that the handlers can
    produce, the members shown are the roster itself, in order, each
    member in the slot of its position, and the slots after them are
    empty. *)
Theorem party_slots_show_roster (team : list Pokemon) :
  reachable team ->
  List.length (slots team) = 6%nat
  /\ omap (fun slot : option Pokemon => slot) (slots team) = team
  /\ (forall i member,
        team !! i = Some member -> slots team !! i = Some (Some member))
  /\ (forall i, (List.length team <= i < 6)%nat -> slots team !! i = Some None).
Proof.
  intros [Hlen _]%reachable_invariant.
  split; [done | split; [ | split] ].
  - rewrite slots_take. by apply firstn_all2.
  - intros i member Hi.
    assert (i < 6)%nat as Hi6
      by (apply lookup_lt_Some in Hi; lia).
    unfold slots. rewrite list_lookup_fmap.
    rewrite (lookup_seq_lt 0 6 i Hi6). simpl. by rewrite Hi.
  - intros i [Hi Hi6]. unfold slots. rewrite list_lookup_fmap.
    rewrite (lookup_seq_lt 0 6 i Hi6). simpl.
    by rewrite (lookup_ge_None_2 team i Hi).
Qed.

Lemma party_slots_show_roster_witness :
  let team := [entity 25 ["electric"]; entity 6 ["fire"; "flying"]] in
  List.length (slots team) = 6%nat
  /\ omap (fun slot : option Pokemon => slot) (slots team) = team
  /\ (forall i member,
        team !! i = Some member -> slots team !! i = Some (Some member))
  /\ (forall i, (List.length team <= i < 6)%nat -> slots team !! i = Some None).
Proof.
  apply (party_slots_show_roster
           [entity 25 ["electric"]; entity 6 ["fire"; "flying"]]).
  apply (reachable_add (Some (entity 6 ["fire"; "flying"]))
           [entity 25 ["electric"]]).
  apply (reachable_add (Some (entity 25 ["electric"])) []).
  apply reachable_initial.
Defined.

(** Adding a subject whose number is not in the roster and then removing
    that number gives the roster back, whether the addition was accepted
    or the roster was full; and removing a number twice is removing it
    once. *)
Theorem add_then_remove (pokemon : Pokemon) (team : list Pokemon) :
  id pokemon ∉ id <$> team ->
  removeFromTeam (id pokemon) (addToTeam (Some pokemon) team).1 = team
  /\ forall i, removeFromTeam i (removeFromTeam i team) = removeFromTeam i team.
Proof.
  intros Hfresh. split.
  - destruct (decide (6 <= List.length team)%nat) as [Hfull | Hroom].
    + rewrite addToTeam_full by done. simpl.
      by apply removeFromTeam_absent.
    + rewrite addToTeam_fresh by (done || lia). simpl.
      unfold removeFromTeam. rewrite List.filter_app. simpl.
      rewrite Z.eqb_refl. simpl. rewrite app_nil_r.
      by apply removeFromTeam_absent.
  - intros i. apply removeFromTeam_absent.
    intros (p & Hp & Hin)%list_elem_of_fmap.
    apply removeFromTeam_elem in Hin as [_ Hne]. congruence.
Qed.

Lemma add_then_remove_witness :
  removeFromTeam 7
    (addToTeam (Some (entity 7 ["water"])) [entity 1 ["grass"; "poison"]]).1
  = [entity 1 ["grass"; "poison"]]
  /\ forall i,
       removeFromTeam i (removeFromTeam i [entity 1 ["grass"; "poison"]])
       = removeFromTeam i [entity 1 ["grass"; "poison"]].
Proof.
  apply (add_then_remove (entity 7 ["water"]) [entity 1 ["grass"; "poison"]]).
  apply (bool_decide_unpack _). by vm_compute.
Defined.

(** * The page: search and navigation *)

Import PokeApi.

Lemma trimStart_blank s : blank (trimStart s) = blank s.
Proof.
  induction s as [ | c s IH]; [done | ]. simpl.
  destruct (Ascii.is_space c) eqn:Hc; [done | ]. simpl. by rewrite Hc.
Qed.

Lemma trimStart_truthy s : truthy (trimStart s) = negb (blank s).
Proof.
  induction s as [ | c s IH]; [done | ]. simpl.
  by destruct (Ascii.is_space c).
Qed.

Lemma rev_app_blank s acc :
  blank (String.rev_app s acc) = blank s && blank acc.
Proof.
  revert acc. induction s as [ | c s IH]; intros acc; [done | ].
  simpl. rewrite IH. simpl.
  destruct (Ascii.is_space c), (blank s), (blank acc); done.
Qed.

Lemma rev_blank s : blank (String.rev s) = blank s.
Proof. unfold String.rev. rewrite rev_app_blank. simpl. apply andb_true_r. Qed.

Lemma blank_truthy s : blank s = false -> truthy s = true.
Proof. by destruct s. Qed.

(** [inputValue.trim()] is falsy exactly on white space. *)
Lemma trim_truthy s : truthy (trim s) = negb (blank s).
Proof.
  unfold trim. destruct (blank s) eqn:Hs; simpl.
  - assert (trimStart s = "") as ->.
    { pose proof (trimStart_truthy s) as H. rewrite Hs in H.
      by destruct (trimStart s). }
    done.
  - apply blank_truthy.
    by rewrite rev_blank, trimStart_blank, rev_blank, trimStart_blank.
Qed.

Lemma toLowerCase_truthy s : truthy (toLowerCase s) = truthy s.
Proof. by destruct s. Qed.

Lemma blank_false_truthy s : blank s = false -> truthy s = true.
Proof. by destruct s. Qed.

Lemma truthy_falsy s : truthy s = true -> falsy (QString s) = false.
Proof. by destruct s. Qed.

(** [handleSearch] ignores an input of white space. On any other input
    the query becomes the lower-cased input, untrimmed; it is truthy, and
    [getPokemon] then requests the lower-cased input as it stands. *)
Theorem handleSearch_request {J : Type} (inputValue : string)
    (searchId : Query) :
  (blank inputValue = true -> handleSearch inputValue searchId = searchId)
  /\ (blank inputValue = false ->
      handleSearch inputValue searchId = QString (toLowerCase inputValue)
      /\ falsy (handleSearch inputValue searchId) = false
      /\ exists k,
           getPokemon (J := J) (handleSearch inputValue searchId)
           = Fetch J (endpoint +:+ toLowerCase inputValue) k).
Proof.
  unfold handleSearch. rewrite trim_truthy.
  split; intros Hblank; rewrite Hblank; [done | ].
  simpl. assert (truthy (toLowerCase inputValue) = true) as Htruthy.
  { rewrite toLowerCase_truthy. by apply blank_false_truthy. }
  split; [done | split; [by apply truthy_falsy | ] ].
  unfold getPokemon, orOne. rewrite (truthy_falsy _ Htruthy).
  simpl. rewrite toLowerCase_idempotent. by eexists.
Qed.

Lemma handleSearch_request_witness :
  handleSearch " PikaChu" (QNumber 1) = QString " pikachu"
  /\ falsy (handleSearch " PikaChu" (QNumber 1)) = false
  /\ exists k,
       getPokemon (J := nat) (handleSearch " PikaChu" (QNumber 1))
       = Fetch nat (endpoint +:+ " pikachu") k.
Proof.
  apply (proj2 (@handleSearch_request nat " PikaChu" (QNumber 1))).
  reflexivity.
Defined.

Lemma requested_number n : n <> 0 -> requested (QNumber n) = endpoint +:+ pretty n.
Proof. intros Hn. unfold requested, orOne. by destruct n. Qed.

(** Navigation. With no subject loaded the two handlers do nothing.
    [handleNext] asks for the next number. [handlePrev] asks for the
    previous number when the subject's number exceeds 1 and does nothing
    otherwise; the PREV button is disabled at number 1 only. The requests
    of two numbers other than 0 are equal only if the numbers are; the
    number 0 (from [handleNext] at -1) is falsy and requests number 1. *)
Theorem navigation_requests (pokemon : Pokemon) (searchId : Query) :
  handleNext None searchId = searchId
  /\ handlePrev None searchId = searchId
  /\ handleNext (Some pokemon) searchId = QNumber (id pokemon + 1)
  /\ requested (handleNext (Some pokemon) searchId)
     = endpoint +:+ pretty (if id pokemon =? -1 then 1 else id pokemon + 1)
  /\ (1 < id pokemon ->
      prevDisabled pokemon = false /\
      requested (handlePrev (Some pokemon) searchId)
      = endpoint +:+ pretty (id pokemon - 1))
  /\ (id pokemon <= 1 -> handlePrev (Some pokemon) searchId = searchId)
  /\ (prevDisabled pokemon = true <-> id pokemon = 1)
  /\ (forall m n,
        m <> 0 -> n <> 0 ->
        requested (QNumber m) = requested (QNumber n) -> m = n).
Proof.
  split; [done | split; [done | split; [done | ] ] ].
  split; [ | split; [ | split; [ | split] ] ].
  - simpl. destruct (Z.eqb_spec (id pokemon) (-1)) as [-> | Hne]; [done | ].
    apply requested_number. lia.
  - intros Hid. unfold prevDisabled, handlePrev.
    rewrite (proj2 (Z.ltb_lt _ _) Hid).
    split; [apply Z.eqb_neq; lia | apply requested_number; lia].
  - intros Hid. unfold handlePrev.
    by rewrite (proj2 (Z.ltb_ge _ _) Hid).
  - unfold prevDisabled. apply Z.eqb_eq.
  - intros m n Hm Hn. rewrite !requested_number by done.
    intros Heq. apply (inj (String.app endpoint)) in Heq.
    by apply (inj pretty) in Heq.
Qed.

Lemma navigation_requests_witness :
  prevDisabled (entity 25 ["electric"]) = false /\
  requested (handlePrev (Some (entity 25 ["electric"])) (QNumber 25))
  = endpoint +:+ pretty (25 - 1).
Proof.
  apply (proj1 (proj2 (proj2 (proj2 (proj2
           (navigation_requests (entity 25 ["electric"]) (QNumber 25))))))).
  simpl. lia.
Defined.

(** * The page: badge colours and the party bar *)

Lemma ownColor_Some (colors : list (string * string)) k :
  is_Some (ownColor colors k) <-> k ∈ colors.*1.
Proof.
  induction colors as [ | [k' classes] colors IH]; simpl.
  - split; [by intros [? ?] | by intros ?%elem_of_nil].
  - case_decide as Hk.
    + subst. split; [intros _; left | by eexists].
    + rewrite IH, elem_of_cons. split; [by right | by intros [-> | ?] ].
Qed.

Lemma partyBadge_Return name :
  (exists c, partyBadge name = Return c) <-> name ∈ TYPE_COLORS.*1.
Proof.
  rewrite <- ownColor_Some. unfold partyBadge, TYPE_COLORS_get.
  destruct (ownColor TYPE_COLORS name) as [classes | ].
  - split; [by eexists | by eexists].
  - split; [ | by intros [? ?] ].
    by destruct (includes name Object_prototype); intros [? ?].
Qed.

Lemma partyBadge_Throw name e : partyBadge name = Throw e -> e = TypeError.
Proof.
  unfold partyBadge. destruct (TYPE_COLORS_get name); congruence.
Qed.

Lemma color_keys_canonical k : k ∈ TYPE_COLORS.*1 -> k ∈ allTypes.
Proof.
  intros Hk.
  assert (forallb (fun k => includes k allTypes) TYPE_COLORS.*1 = true) as H
    by (by vm_compute).
  rewrite forallb_forall in H. apply list_elem_of_In in Hk.
  by apply includes_true, H.
Qed.

Lemma canonical_without_color t :
  t ∈ allTypes -> (t ∉ TYPE_COLORS.*1 <-> t = "dark").
Proof.
  intros Ht.
  assert (forallb (fun t => bool_decide (t ∉ TYPE_COLORS.*1 <-> t = "dark"))
            allTypes = true) as H by (by vm_compute).
  rewrite forallb_forall in H. apply list_elem_of_In in Ht.
  exact (proj1 (bool_decide_eq_true _) (H t Ht)).
Qed.

(** The badge colour of the party bar is computed exactly for the 17 keys
    of [TYPE_COLORS], where it is the class [bg-type-] followed by the
    key; on any other name the lookup throws. The keys are canonical
    types, and dark is the one canonical type without a colour: on dark
    the party bar throws, while the main card falls back to grey. *)
Theorem party_badge_colours :
  (forall name,
     (exists c, partyBadge name = Return c) <-> name ∈ TYPE_COLORS.*1)
  /\ (forall name, name ∉ TYPE_COLORS.*1 -> partyBadge name = Throw TypeError)
  /\ (forall name,
        name ∈ TYPE_COLORS.*1 ->
        partyBadge name = Return ("bg-type-" +:+ name))
  /\ (forall k, k ∈ TYPE_COLORS.*1 -> k ∈ allTypes)
  /\ (forall t, t ∈ allTypes -> (t ∉ TYPE_COLORS.*1 <-> t = "dark"))
  /\ partyBadge "dark" = Throw TypeError
  /\ cardBadge "dark" = VString "bg-gray-400 text-white border-black".
Proof.
  split; [apply partyBadge_Return | ].
  split; [ | split; [ | split; [apply color_keys_canonical | ] ] ].
  - intros name Hname. destruct (partyBadge name) as [c | e] eqn:Hb.
    + exfalso. apply Hname, partyBadge_Return. by exists c.
    + by rewrite (partyBadge_Throw name e Hb).
  - intros name Hname.
    assert (forallb (fun k => bool_decide
                       (entry_of (partyBadge k) = Some ("bg-type-" +:+ k)))
              TYPE_COLORS.*1 = true) as H by (by vm_compute).
    rewrite forallb_forall in H. apply list_elem_of_In in Hname.
    pose proof (proj1 (bool_decide_eq_true _) (H name Hname)) as Hbadge.
    destruct (partyBadge name); simpl in Hbadge; congruence.
  - split; [apply canonical_without_color | by vm_compute].
Qed.

Lemma traverse_Return {A B : Type} (f : A -> completion B) (l : list A) :
  (exists ys, traverse f l = Return ys) <->
  forall x, x ∈ l -> exists y, f x = Return y.
Proof.
  induction l as [ | x l IH]; simpl.
  - split; [by intros _ x ?%elem_of_nil | by eexists].
  - split.
    + intros [ys Hys] x' Hx'. destruct (f x) as [y | e] eqn:Hfx; [ | done].
      simpl in Hys. destruct (traverse f l) as [ys' | e] eqn:Hl; [ | done].
      apply elem_of_cons in Hx' as [-> | Hx']; [by exists y | ].
      apply (proj1 IH); [by eexists | done].
    + intros Hall. destruct (Hall x ltac:(left)) as [y ->]. simpl.
      destruct (proj2 IH) as [ys ->]; [ | by eexists].
      intros x' Hx'. apply Hall. by right.
Qed.

Lemma traverse_Throw {A B : Type} (f : A -> completion B) (l : list A) e :
  traverse f l = Throw e -> exists x, x ∈ l /\ f x = Throw e.
Proof.
  induction l as [ | x l IH]; simpl; [done | ].
  destruct (f x) as [y | e'] eqn:Hfx; simpl.
  - destruct (traverse f l) as [ys | e'']; simpl; [done | ].
    intros [= ->]. destruct IH as (x' & Hx' & Hfx'); [done | ].
    exists x'. split; [by right | done].
  - intros [= ->]. exists x. split; [left | done].
Qed.

Lemma calculateDefensiveMatchups_Throw types e :
  calculateDefensiveMatchups types = Throw e -> e = TypeError.
Proof.
  rewrite calculateDefensiveMatchups_eq. destruct (plain types); congruence.
Qed.

Lemma coloured_plain (names : list string) :
  (forall t, t ∈ names -> t ∈ TYPE_COLORS.*1) -> plain names = true.
Proof.
  intros H. apply canonical_plain. intros t Ht.
  pose proof (color_keys_canonical t (H t Ht)) as Hc.
  by rewrite (canonical_lower t Hc).
Qed.

Lemma memberDialog_Return member :
  (exists d, memberDialog member = Return d) <->
  forall t, t ∈ typeNames member -> t ∈ TYPE_COLORS.*1.
Proof.
  unfold memberDialog. split.
  - intros [d Hd] t Ht. apply partyBadge_Return.
    apply (proj1 (traverse_Return partyBadge (typeNames member))); [ | done].
    destruct (traverse partyBadge (typeNames member)); [by eexists | done].
  - intros Hall.
    destruct (proj2 (traverse_Return partyBadge (typeNames member)))
      as [badges ->].
    { intros t Ht. by apply partyBadge_Return, Hall. }
    simpl.
    rewrite calculateDefensiveMatchups_plain by (by apply coloured_plain).
    by eexists.
Qed.

Lemma memberDialog_Throw member e :
  memberDialog member = Throw e -> e = TypeError.
Proof.
  unfold memberDialog.
  destruct (traverse partyBadge (typeNames member)) as [badges | e'] eqn:Hb.
  - simpl.
    destruct (calculateDefensiveMatchups (typeNames member)) as [m | e'']
      eqn:Hm; simpl; [done | ].
    intros [= ->]. by apply (calculateDefensiveMatchups_Throw _ _ Hm).
  - simpl. intros [= ->].
    apply traverse_Throw in Hb as (t & _ & Ht).
    by apply (partyBadge_Throw t).
Qed.

Lemma slots_member (team : list Pokemon) member :
  Some member ∈ slots team <-> member ∈ take 6 team.
Proof.
  rewrite <- slots_take, list_elem_of_omap. split.
  - intros H. by exists (Some member).
  - by intros (slot & Hslot & ->).
Qed.

(** The party bar renders exactly when every type name of the first six
    members is a key of [TYPE_COLORS], as written, in lower case.
    Otherwise it throws a TypeError; so it does on a roster that holds a
    member of type dark. *)
Theorem party_bar_renders (team : list Pokemon) :
  ((exists r, partyBar team = Return r) <->
   forall member t,
     member ∈ take 6 team -> t ∈ typeNames member -> t ∈ TYPE_COLORS.*1)
  /\ (forall e, partyBar team = Throw e -> e = TypeError)
  /\ (forall member,
        member ∈ take 6 team -> "dark" ∈ typeNames member ->
        partyBar team = Throw TypeError).
Proof.
  assert ((exists r, partyBar team = Return r) <->
          forall member t,
            member ∈ take 6 team -> t ∈ typeNames member ->
            t ∈ TYPE_COLORS.*1) as Hiff.
  { unfold partyBar. rewrite traverse_Return. split.
    - intros Hall member t Hmember Ht.
      apply slots_member in Hmember.
      destruct (Hall _ Hmember) as [y Hy].
      apply (proj1 (memberDialog_Return member)); [ | done].
      destruct (memberDialog member); [by eexists | done].
    - intros Hall [member | ] Hslot; [ | by eexists].
      apply slots_member in Hslot.
      destruct (proj2 (memberDialog_Return member)) as [d ->];
        [by intros t; apply Hall | by eexists]. }
  assert (forall e, partyBar team = Throw e -> e = TypeError) as Hthrow.
  { intros e He. unfold partyBar in He.
    apply traverse_Throw in He as ([member | ] & _ & Hslot); [ | done].
    destruct (memberDialog member) as [d | e'] eqn:Hd; [done | ].
    simpl in Hslot. injection Hslot as <-.
    by apply (memberDialog_Throw member). }
  split; [done | split; [done | ] ].
  intros member Hmember Hdark.
  destruct (partyBar team) as [r | e] eqn:Hbar.
  - exfalso.
    assert ("dark" ∈ TYPE_COLORS.*1) as Hin
      by (apply (proj1 Hiff) with member; [by exists r | done | done]).
    assert ("dark" ∉ TYPE_COLORS.*1) as Hnot; [ | done].
    apply canonical_without_color; [ | done].
    apply (bool_decide_unpack _). by vm_compute.
  - by rewrite (Hthrow e).
Qed.

(** * The page: the analysis of a member *)

Lemma signOfDifference_opp x y :
  signOfDifference y x = - signOfDifference x y.
Proof.
  destruct x as [ | | | a], y as [ | | | b]; simpl; try done.
  replace (b - a) with (- (a - b)) by lia. apply Z.sgn_opp.
Qed.

Section Sorting.

Context {A : Type} (compare : A -> A -> Z).

(** The comparator never ranks two elements each above the other. *)
Hypothesis compare_opp : forall x y, compare y x = - compare x y.

Lemma insert_Permutation x l : insert compare x l ≡ₚ x :: l.
Proof.
  induction l as [ | y l IH]; simpl; [done | ].
  destruct (compare x y <=? 0); [done | ].
  rewrite IH. apply perm_swap.
Qed.

Lemma sort_Permutation l : sort compare l ≡ₚ l.
Proof.
  induction l as [ | x l IH]; simpl; [done | ].
  fold (sort compare l). by rewrite insert_Permutation, IH.
Qed.

Lemma insert_HdRel x y l :
  compare y x <= 0 ->
  HdRel (fun p q => compare p q <= 0) y l ->
  HdRel (fun p q => compare p q <= 0) y (insert compare x l).
Proof.
  intros Hyx Hhd. destruct l as [ | z l]; simpl.
  - by constructor.
  - destruct (compare x z <=? 0); constructor; [done | ].
    by inversion Hhd.
Qed.

Lemma insert_Sorted x l :
  Sorted (fun p q => compare p q <= 0) l ->
  Sorted (fun p q => compare p q <= 0) (insert compare x l).
Proof.
  induction 1 as [ | y l Hsorted IH Hhd]; simpl.
  - repeat constructor.
  - destruct (Z.leb_spec (compare x y) 0) as [Hle | Hgt].
    + constructor; [by constructor | by constructor].
    + constructor; [done | ]. apply insert_HdRel; [ | done].
      rewrite compare_opp. lia.
Qed.

Lemma sort_Sorted l : Sorted (fun p q => compare p q <= 0) (sort compare l).
Proof.
  induction l as [ | x l IH]; simpl; [constructor | ].
  by apply insert_Sorted.
Qed.

End Sorting.

Lemma Object_entries_elem (defensive : gmap string number) a x :
  (a, x) ∈ Object_entries defensive <->
  a ∈ allTypes /\ defensive !! a = Some x.
Proof.
  unfold Object_entries. rewrite list_elem_of_omap. split.
  - intros (a' & Ha' & Hx). destruct (defensive !! a') as [x' | ] eqn:Hm;
      simpl in Hx; [ | done].
    injection Hx as -> ->. done.
  - intros [Ha Hm]. exists a. split; [done | ]. by rewrite Hm.
Qed.

Lemma entries_keys_NoDup (defensive : gmap string number) (l : list string) :
  NoDup l ->
  NoDup (omap (fun a => (fun x => (a, x)) <$> defensive !! a) l).*1.
Proof.
  induction 1 as [ | a l Ha Hnd IH]; simpl; [apply NoDup_nil_2 | ].
  destruct (defensive !! a) as [x | ]; simpl; [ | done].
  apply NoDup_cons. split; [ | done].
  intros ([a' x'] & Heq & Hin)%list_elem_of_fmap. simpl in Heq. subst a'.
  apply list_elem_of_omap in Hin as (a' & Ha' & Hx').
  destruct (defensive !! a'); simpl in Hx'; [ | done].
  injection Hx' as -> _. done.
Qed.

Lemma filter_keys_NoDup (f : string * number -> bool)
    (l : list (string * number)) :
  NoDup l.*1 -> NoDup (List.filter f l).*1.
Proof.
  induction l as [ | p l IH]; simpl; [done | ].
  intros [Hp Hnd]%NoDup_cons. destruct (f p); simpl; [ | by apply IH].
  apply NoDup_cons. split; [ | by apply IH].
  intros (q & Heq & Hin)%list_elem_of_fmap.
  apply list_elem_of_In, filter_In in Hin as [Hin _].
  apply Hp. apply list_elem_of_fmap. exists q.
  split; [done | by apply list_elem_of_In].
Qed.

Lemma dialogWeaknesses_elem (defensive : gmap string number) a x :
  (a, x) ∈ dialogWeaknesses defensive <->
  a ∈ allTypes /\ defensive !! a = Some x /\ gt1 x = true.
Proof.
  unfold dialogWeaknesses.
  rewrite (sort_Permutation descending), list_elem_of_In, filter_In.
  rewrite <- list_elem_of_In, Object_entries_elem. simpl. tauto.
Qed.

Lemma dialogResistances_elem (defensive : gmap string number) a x :
  (a, x) ∈ dialogResistances defensive <->
  a ∈ allTypes /\ defensive !! a = Some x /\ lt1 x = true.
Proof.
  unfold dialogResistances.
  rewrite (sort_Permutation ascending), list_elem_of_In, filter_In.
  rewrite <- list_elem_of_In, Object_entries_elem. simpl. tauto.
Qed.

Lemma gt1_lt1 x : gt1 x = true -> lt1 x = true -> False.
Proof. destruct x as [ | | | e]; simpl; try done. lia. Qed.

(** The two lists of a member's dialog, for any object of matchups. WEAK
    TO holds exactly the canonical types whose multiplier exceeds 1, the
    larger multiplier first; RESISTANT TO holds exactly those whose
    multiplier is below 1, the smaller first (an immunity, [0], leads).
    No type appears twice in a list, and none appears in both. *)
Theorem dialog_lists_sorted (defensive : gmap string number) :
  Sorted (fun p q => signOfDifference q.2 p.2 <= 0)
    (dialogWeaknesses defensive)
  /\ Sorted (fun p q => signOfDifference p.2 q.2 <= 0)
       (dialogResistances defensive)
  /\ (forall a x,
        (a, x) ∈ dialogWeaknesses defensive <->
        a ∈ allTypes /\ defensive !! a = Some x /\ gt1 x = true)
  /\ (forall a x,
        (a, x) ∈ dialogResistances defensive <->
        a ∈ allTypes /\ defensive !! a = Some x /\ lt1 x = true)
  /\ NoDup (dialogWeaknesses defensive).*1
  /\ NoDup (dialogResistances defensive).*1
  /\ (forall a,
        a ∈ (dialogWeaknesses defensive).*1 ->
        a ∉ (dialogResistances defensive).*1).
Proof.
  split; [ | split; [ | split; [ | split; [ | split; [ | split] ] ] ] ].
  - apply (sort_Sorted descending).
    intros p q. apply signOfDifference_opp.
  - apply (sort_Sorted ascending).
    intros p q. apply signOfDifference_opp.
  - apply dialogWeaknesses_elem.
  - apply dialogResistances_elem.
  - unfold dialogWeaknesses. rewrite (sort_Permutation descending).
    apply filter_keys_NoDup, entries_keys_NoDup, allTypes_NoDup.
  - unfold dialogResistances. rewrite (sort_Permutation ascending).
    apply filter_keys_NoDup, entries_keys_NoDup, allTypes_NoDup.
  - intros a ([a1 x] & Heq & Hw)%list_elem_of_fmap
             ([a2 y] & Heq' & Hr)%list_elem_of_fmap.
    simpl in *. subst a1 a2.
    apply dialogWeaknesses_elem in Hw as (_ & Hx & Hgt).
    apply dialogResistances_elem in Hr as (_ & Hy & Hlt).
    rewrite Hx in Hy. injection Hy as <-. by apply (gt1_lt1 x).
Qed.



(** * The comparison, in general *)

Lemma currentPokemonWeaknesses_elem (matchups : gmap string number) a :
  a ∈ currentPokemonWeaknesses matchups <->
  exists x, matchups !! a = Some x /\ gt1 x = true.
Proof.
  unfold currentPokemonWeaknesses. rewrite list_elem_of_fmap. split.
  - intros ([a' x] & -> & Hin). simpl.
    apply list_elem_of_In, filter_In in Hin as [Hin Hgt].
    apply list_elem_of_In, elem_of_map_to_list in Hin. by exists x.
  - intros (x & Hx & Hgt). exists (a, x). split; [done | ].
    apply list_elem_of_In, filter_In. split; [ | done].
    by apply list_elem_of_In, elem_of_map_to_list.
Qed.

Lemma filter_sublist {A : Type} (f : A -> bool) (l : list A) :
  List.filter f l `sublist_of` l.
Proof.
  induction l as [ | x l IH]; simpl; [done | ].
  destruct (f x); [by apply sublist_skip | by apply sublist_cons].
Qed.

Lemma filterM_Return_inv {A : Type} (f : A -> completion bool) (l : list A) r :
  filterM f l = Return r -> forall x, x ∈ l -> exists b, f x = Return b.
Proof.
  revert r. induction l as [ | y l IH]; intros r Hr x Hx.
  - by apply elem_of_nil in Hx.
  - simpl in Hr. destruct (f y) as [b | e] eqn:Hfy; [ | done].
    simpl in Hr. destruct (filterM f l) as [kept | e] eqn:Hl; [ | done].
    apply elem_of_cons in Hx as [-> | Hx]; [by exists b | by eapply IH].
Qed.

Lemma filterM_Throw_inv {A : Type} (f : A -> completion bool) (l : list A) e :
  filterM f l = Throw e -> exists x, x ∈ l /\ f x = Throw e.
Proof.
  induction l as [ | y l IH]; simpl; [done | ].
  destruct (f y) as [b | e'] eqn:Hfy; simpl.
  - destruct (filterM f l) as [kept | e'']; simpl; [done | ].
    intros [= ->]. destruct IH as (x & Hx & Hfx); [done | ].
    exists x. split; [by right | done].
  - intros [= ->]. exists y. split; [left | done].
Qed.

Lemma calculateDefensiveMatchups_Return_plain types m :
  calculateDefensiveMatchups types = Return m -> plain types = true.
Proof.
  rewrite calculateDefensiveMatchups_eq. by destruct (plain types).
Qed.

Lemma exceeds1_entry types atk :
  plain types = true ->
  exceeds1 (matchupsOf (multiplier types)) atk = true <->
  exists x, entry (calculateDefensiveMatchups types) atk = Some x /\
            gt1 x = true.
Proof.
  intros Hplain. rewrite calculateDefensiveMatchups_plain by done.
  unfold exceeds1. simpl.
  destruct (matchupsOf (multiplier types) !! atk) as [x | ].
  - split; [by exists x | by intros (y & [= <-] & Hy)].
  - split; [done | by intros (y & Hy & _)].
Qed.

(** On a subject and a roster of plain type names the comparison returns
    two sublists of the roster, in the roster's order. A member is in the
    Advantage set exactly when one of its type names, as written, is a
    key of the subject's matchups with a multiplier above 1; it is in the
    Risk set exactly when its own multiplier exceeds 1 for one of the
    subject's offensive strengths. *)
Theorem comparison_sets (pokemon : option Pokemon) (team : list Pokemon) :
  plain (currentTypes pokemon) = true ->
  (forall member, member ∈ team -> plain (typeNames member) = true) ->
  exists c,
    comparison pokemon team = Return c
    /\ teamAdvantage c `sublist_of` team
    /\ teamDisadvantage c `sublist_of` team
    /\ (forall member,
          member ∈ teamAdvantage c <->
          member ∈ team /\
          exists t x,
            t ∈ typeNames member /\
            entry (calculateDefensiveMatchups (currentTypes pokemon)) t
            = Some x /\ gt1 x = true)
    /\ (forall member,
          member ∈ teamDisadvantage c <->
          member ∈ team /\
          exists atk x,
            atk ∈ getOffensiveStrengths (currentTypes pokemon) /\
            entry (calculateDefensiveMatchups (typeNames member)) atk
            = Some x /\ gt1 x = true).
Proof.
  intros Hsubject Hteam. unfold comparison.
  rewrite calculateDefensiveMatchups_plain by done. cbn [bind].
  rewrite (filterM_Return _
             (fun m => existsb
                (exceeds1 (matchupsOf (multiplier (typeNames m))))
                (getOffensiveStrengths (currentTypes pokemon))))
    by (intros member Hmember; by apply weakTo_plain, Hteam).
  cbn [bind]. eexists. split; [reflexivity | ].
  cbn [teamAdvantage teamDisadvantage entry].
  split; [apply filter_sublist | split; [apply filter_sublist | split] ].
  - intros member. rewrite list_elem_of_In, filter_In, <- list_elem_of_In.
    rewrite existsb_exists. split.
    + intros [Hin (t & Ht & Hinc)]. split; [done | ].
      apply includes_true, currentPokemonWeaknesses_elem in Hinc
        as (x & Hx & Hgt).
      exists (type_name t), x. split; [ | done].
      apply list_elem_of_fmap. exists t.
      split; [done | by apply list_elem_of_In].
    + intros [Hin (n & x & Hn & Hx & Hgt)]. split; [done | ].
      apply list_elem_of_fmap in Hn as (t & -> & Ht). exists t.
      split; [by apply list_elem_of_In | ].
      apply includes_true, currentPokemonWeaknesses_elem. by exists x.
  - intros member. rewrite list_elem_of_In, filter_In, <- list_elem_of_In.
    rewrite existsb_exists. split.
    + intros [Hin (atk & Hatk & Hex)]. split; [done | ].
      apply (exceeds1_entry _ _ (Hteam member Hin)) in Hex as (x & Hx & Hgt).
      exists atk, x. split; [by apply list_elem_of_In | done].
    + intros [Hin (atk & x & Hatk & Hx & Hgt)]. split; [done | ].
      exists atk. split; [by apply list_elem_of_In | ].
      apply (exceeds1_entry _ _ (Hteam member Hin)). by exists x.
Qed.

Lemma comparison_sets_witness :
  exists c,
    comparison (Some (entity 6 ["fire"; "flying"]))
      [entity 9 ["water"]; entity 3 ["Grass"; "poison"]] = Return c
    /\ teamAdvantage c
       `sublist_of` [entity 9 ["water"]; entity 3 ["Grass"; "poison"]]
    /\ teamDisadvantage c
       `sublist_of` [entity 9 ["water"]; entity 3 ["Grass"; "poison"]]
    /\ (forall member,
          member ∈ teamAdvantage c <->
          member ∈ [entity 9 ["water"]; entity 3 ["Grass"; "poison"]] /\
          exists t x,
            t ∈ typeNames member /\
            entry (calculateDefensiveMatchups
                     (currentTypes (Some (entity 6 ["fire"; "flying"])))) t
            = Some x /\ gt1 x = true)
    /\ (forall member,
          member ∈ teamDisadvantage c <->
          member ∈ [entity 9 ["water"]; entity 3 ["Grass"; "poison"]] /\
          exists atk x,
            atk ∈ getOffensiveStrengths
                    (currentTypes (Some (entity 6 ["fire"; "flying"]))) /\
            entry (calculateDefensiveMatchups (typeNames member)) atk
            = Some x /\ gt1 x = true).
Proof.
  apply (comparison_sets (Some (entity 6 ["fire"; "flying"]))
           [entity 9 ["water"]; entity 3 ["Grass"; "poison"]]).
  - reflexivity.
  - intros member Hmember.
    apply elem_of_cons in Hmember as [-> | Hmember]; [reflexivity | ].
    apply list_elem_of_singleton in Hmember. subst member. reflexivity.
Defined.

(** The comparison returns exactly when the type names of the subject
    and of every roster member are plain; otherwise it throws, and the
    error is a TypeError. *)
Theorem comparison_returns_iff (pokemon : option Pokemon)
    (team : list Pokemon) :
  ((exists c, comparison pokemon team = Return c) <->
   plain (currentTypes pokemon) = true /\
   forall member, member ∈ team -> plain (typeNames member) = true)
  /\ (forall e, comparison pokemon team = Throw e -> e = TypeError).
Proof.
  split.
  - split.
    + intros [c Hc]. unfold comparison in Hc.
      destruct (calculateDefensiveMatchups (currentTypes pokemon))
        as [m | e] eqn:Hm; [ | done].
      split; [by eapply calculateDefensiveMatchups_Return_plain | ].
      cbn [bind] in Hc.
      destruct (filterM _ team) as [r | e] eqn:Hr; [ | done].
      intros member Hmember.
      destruct (filterM_Return_inv _ _ _ Hr member Hmember) as [b Hb].
      unfold weakTo in Hb.
      destruct (calculateDefensiveMatchups (typeNames member))
        as [m' | e] eqn:Hm'; [ | done].
      by eapply calculateDefensiveMatchups_Return_plain.
    + intros [Hsubject Hteam].
      unfold comparison.
      rewrite calculateDefensiveMatchups_plain by done. cbn [bind].
      rewrite (filterM_Return _
                 (fun m => existsb
                    (exceeds1 (matchupsOf (multiplier (typeNames m))))
                    (getOffensiveStrengths (currentTypes pokemon))))
        by (intros member Hmember; by apply weakTo_plain, Hteam).
      by eexists.
  - intros e He. unfold comparison in He.
    destruct (calculateDefensiveMatchups (currentTypes pokemon))
      as [m | e'] eqn:Hm.
    + cbn [bind] in He.
      destruct (filterM _ team) as [r | e''] eqn:Hr; [done | ].
      cbn [bind] in He. injection He as <-.
      apply filterM_Throw_inv in Hr as (member & _ & Hthrow).
      unfold weakTo in Hthrow.
      destruct (calculateDefensiveMatchups (typeNames member))
        as [m' | e3] eqn:Hm'; [done | ].
      cbn [bind] in Hthrow. injection Hthrow as <-.
      by apply (calculateDefensiveMatchups_Throw _ _ Hm').
    + cbn [bind] in He. injection He as <-.
      by apply (calculateDefensiveMatchups_Throw _ _ Hm).
Qed.

(** * The two derivations, together *)

Lemma step_lower a x d : step a x (toLowerCase d) = step a x d.
Proof. unfold step. by rewrite toLowerCase_idempotent. Qed.

Lemma throws_lower d : throws (toLowerCase d) = throws d.
Proof. unfold throws. by rewrite toLowerCase_idempotent. Qed.

Lemma scan_lower atkType strengths :
  scan (toLowerCase atkType) strengths = scan atkType strengths.
Proof.
  unfold scan. generalize TYPE_CHART. intros chart. revert strengths.
  induction chart as [ | [k data] chart IH]; intros strengths; [done | ].
  simpl. rewrite toLowerCase_idempotent. apply IH.
Qed.

(** Both derivations read their input without regard to letter case:
    lower-casing every identifier of the list changes neither result. *)
Theorem derivations_case_insensitive (types : list string) :
  calculateDefensiveMatchups (toLowerCase <$> types)
  = calculateDefensiveMatchups types
  /\ getOffensiveStrengths (toLowerCase <$> types)
     = getOffensiveStrengths types.
Proof.
  split.
  - rewrite !calculateDefensiveMatchups_eq.
    assert (plain (toLowerCase <$> types) = plain types) as ->.
    { induction types as [ | d types IH]; [done | ].
      rewrite fmap_cons. unfold plain in *. simpl.
      by rewrite throws_lower, IH. }
    destruct (plain types); [ | done]. f_equal.
    apply matchupsOf_ext. intros a _. unfold multiplier.
    generalize one. induction types as [ | d types IH]; intros x; [done | ].
    rewrite fmap_cons. simpl. by rewrite step_lower, IH.
  - unfold getOffensiveStrengths. generalize (@nil string).
    induction types as [ | d types IH]; intros strengths; [done | ].
    rewrite fmap_cons. simpl. by rewrite scan_lower, IH.
Qed.

(** The offensive strengths of a list are the union of those of its
    parts, they are canonical types, and the order of the attackers
    matters only to the order of the result. *)
Theorem getOffensiveStrengths_union (attackers1 attackers2 : list string) :
  (forall d,
     d ∈ getOffensiveStrengths (attackers1 ++ attackers2) <->
     d ∈ getOffensiveStrengths attackers1 \/
     d ∈ getOffensiveStrengths attackers2)
  /\ (forall d, d ∈ getOffensiveStrengths attackers1 -> d ∈ allTypes)
  /\ (attackers1 ≡ₚ attackers2 ->
      getOffensiveStrengths attackers1 ≡ₚ getOffensiveStrengths attackers2)
  /\ getOffensiveStrengths [] = [].
Proof.
  assert (forall l d,
            d ∈ getOffensiveStrengths l <->
            exists t data,
              t ∈ l /\ (d, data) ∈ TYPE_CHART /\
              toLowerCase t ∈ double data) as Hiff.
  { intros l d. unfold getOffensiveStrengths. rewrite foldl_scan_elem.
    split; [ | by right]. intros [H | H]; [by apply elem_of_nil in H | done]. }
  split; [ | split; [ | split; [ | done] ] ].
  - intros d. rewrite !Hiff. split.
    + intros (t & data & Ht & Hd & Hin).
      apply elem_of_app in Ht as [Ht | Ht]; [left | right];
        by exists t, data.
    + intros [(t & data & Ht & Hd & Hin) | (t & data & Ht & Hd & Hin)];
        exists t, data; (split; [apply elem_of_app; auto | done]).
  - intros d (t & data & _ & Hd & _)%Hiff.
    apply list_elem_of_fmap. by exists (d, data).
  - intros Hperm. apply NoDup_Permutation.
    + apply foldl_scan_NoDup, NoDup_nil_2.
    + apply foldl_scan_NoDup, NoDup_nil_2.
    + intros d. rewrite !Hiff. split;
        intros (t & data & Ht & Hd & Hin); exists t, data;
        (split; [ | done]); [by rewrite <- Hperm | by rewrite Hperm].
Qed.

Lemma getOffensiveStrengths_union_witness :
  getOffensiveStrengths ["fire"; "ghost"]
  ≡ₚ getOffensiveStrengths ["ghost"; "fire"].
Proof.
  apply (proj1 (proj2 (proj2
           (getOffensiveStrengths_union ["fire"; "ghost"] ["ghost"; "fire"])))).
  apply perm_swap.
Defined.

(** The matchups of a list continue those of its front part: on a plain
    list each entry of [types1 ++ types2] is the entry of [types1]
    multiplied by the factors of [types2] in turn, so a type that is
    repeated counts once for each occurrence; and a list whose front part
    makes the call throw makes it throw. *)
Theorem calculateDefensiveMatchups_append (types1 types2 : list string) :
  (forall a,
     plain (types1 ++ types2) = true -> a ∈ allTypes ->
     exists x,
       entry (calculateDefensiveMatchups types1) a = Some x /\
       entry (calculateDefensiveMatchups (types1 ++ types2)) a
       = Some (foldl mul x (factors types2 a)))
  /\ (calculateDefensiveMatchups types1 = Throw TypeError ->
      calculateDefensiveMatchups (types1 ++ types2) = Throw TypeError)
  /\ (forall d a e,
        own TYPE_CHART (toLowerCase d) = Some e -> a ∈ double e ->
        entry (calculateDefensiveMatchups [d; d]) a = Some (Pow2 2)).
Proof.
  split; [ | split].
  - intros a Hplain Ha. pose proof Hplain as Hplain'.
    rewrite plain_app in Hplain'.
    apply andb_true_iff in Hplain' as [Hplain1 Hplain2].
    exists (multiplier types1 a).
    rewrite !calculateDefensiveMatchups_plain by done. simpl.
    rewrite !matchupsOf_lookup_canonical by done.
    split; [done | ]. f_equal. unfold multiplier.
    by rewrite foldl_app, foldl_step_factors.
  - rewrite !calculateDefensiveMatchups_eq, plain_app.
    by destruct (plain types1).
  - intros d a e Hown Ha.
    assert (a ∈ allTypes) as Hcanon.
    { apply (table_closed (toLowerCase d) e); [by apply own_Some_elem | ].
      apply elem_of_app. by left. }
    assert (throws d = false) as Hthrows.
    { unfold throws. by rewrite (proj2 (get_Entry _ _) Hown). }
    rewrite calculateDefensiveMatchups_plain
      by (unfold plain; simpl; by rewrite Hthrows).
    simpl. rewrite matchupsOf_lookup_canonical by done. f_equal.
    rewrite multiplier_product.
    assert (entryFactors e a = [two]) as Hfactors.
    { pose proof (table_separate _ _ (own_Some_elem _ _ _ Hown)) as Hnd.
      apply NoDup_app in Hnd as (_ & Hdh & _).
      specialize (Hdh a Ha). apply not_elem_of_app in Hdh as [Hh Hz].
      unfold entryFactors, relation.
      rewrite (proj2 (includes_true _ _) Ha).
      rewrite (proj2 (includes_false _ _) Hh).
      by rewrite (proj2 (includes_false _ _) Hz). }
    rewrite !factors_cons, Hown, Hfactors. done.
Qed.

Lemma calculateDefensiveMatchups_append_witness :
  exists x,
    entry (calculateDefensiveMatchups ["water"]) "electric" = Some x /\
    entry (calculateDefensiveMatchups (["water"] ++ ["flying"])) "electric"
    = Some (foldl mul x (factors ["flying"] "electric")).
Proof.
  apply (proj1 (calculateDefensiveMatchups_append ["water"] ["flying"])
           "electric").
  - reflexivity.
  - apply (bool_decide_unpack _). by vm_compute.
Defined.

(** On single canonical types the two derivations are inverse to each
    other: a type [d] is an offensive strength of the attacker [t]
    exactly when the defender [d] alone has a multiplier above 1 against
    [t]. *)
Theorem strengths_inverse_of_matchups (t d : string) :
  t ∈ allTypes -> d ∈ allTypes ->
  d ∈ getOffensiveStrengths [t] <->
  exists x, entry (calculateDefensiveMatchups [d]) t = Some x /\
            gt1 x = true.
Proof.
  intros Ht Hd.
  assert (forallb (fun t => forallb (fun d =>
            bool_decide
              (includes d (getOffensiveStrengths [t])
               = match entry (calculateDefensiveMatchups [d]) t with
                 | Some x => gt1 x
                 | None => false
                 end)) allTypes) allTypes = true) as H
    by (by vm_compute).
  rewrite forallb_forall in H. apply list_elem_of_In in Ht, Hd.
  specialize (H t Ht). rewrite forallb_forall in H.
  specialize (H d Hd). apply bool_decide_eq_true in H.
  rewrite <- includes_true, H.
  destruct (entry (calculateDefensiveMatchups [d]) t) as [x | ].
  - split; [by exists x | by intros (y & [= <-] & Hy)].
  - split; [done | by intros (y & Hy & _)].
Qed.

Lemma strengths_inverse_of_matchups_witness :
  "steel" ∈ getOffensiveStrengths ["fire"] <->
  exists x, entry (calculateDefensiveMatchups ["steel"]) "fire" = Some x /\
            gt1 x = true.
Proof.
  apply (strengths_inverse_of_matchups "fire" "steel");
    apply (bool_decide_unpack _); by vm_compute.
Defined.
